(** * Streaming speech endpoint: crossfade, WAV framing, request lifecycle

    A shallow embedding of [app/api/endpoints/speech.py] (and of the header
    parser of [StreamingExampleUsingPyAudio.py]).

    Conventions of the embedding.
    - A numpy array of shape [(channels, samples)] is the list of its rows.
      Samples are exact rationals: the rounding of float32 arithmetic is not
      represented, every arithmetic identity below is an identity of the
      exact values.
    - A Python exception is a value of [exn]; fallible code returns [result].
    - An [async] generator is the list of events it performs when the
      consumer iterates it to the end: status updates, engine calls, yields,
      garbage collection and bulk cleanup, in program order. *)

From Stdlib Require Import String Ascii.
From Stdlib Require Import List Arith ZArith QArith Lia Lqa Bool.
Import ListNotations.

Local Open Scope nat_scope.

(** ** Exceptions and results *)

Inductive exn : Type :=
| HTTPException (status_code : nat)
| ValueError
| IndexError
| ZeroDivisionError
| EngineError            (* whatever [model.generate] raises *)
| CollaboratorError.     (* whatever another collaborator of [app.core] raises *)

Inductive result (A : Type) : Type :=
| Ok (a : A)
| Raise (e : exn).
Arguments Ok {A} a.
Arguments Raise {A} e.

(** ** The fragment of numpy the endpoint uses *)

Module Numpy.

Definition ndarray : Type := list (list Q).

Definition shape0 (a : ndarray) : nat := length a.

Definition shape1 (a : ndarray) : nat :=
  match a with
  | [] => 0
  | r :: _ => length r
  end.

Definition size (a : ndarray) : nat := shape0 a * shape1 a.

Definition at2 (a : ndarray) (c t : nat) : Q := nth t (nth c a []) 0%Q.

(** [a.T] *)
Definition transpose (a : ndarray) : ndarray :=
  map (fun t => map (fun r => nth t r 0%Q) a) (seq 0 (shape1 a)).

(** The bound [-k] of a slice on an axis of length [len].  Python negates
    before it slices, so [-0] is the bound [0]. *)
Definition neg_bound (k len : nat) : nat :=
  if k =? 0 then 0 else len - k.

(** [a[:, :k]] *)
Definition cols_to (k : nat) (a : ndarray) : ndarray := map (firstn k) a.

(** [a[:, k:]] *)
Definition cols_from (k : nat) (a : ndarray) : ndarray := map (skipn k) a.

(** [a[:, :-k]] *)
Definition cols_to_neg (k : nat) (a : ndarray) : ndarray :=
  cols_to (neg_bound k (shape1 a)) a.

(** [a[:, -k:]] *)
Definition cols_from_neg (k : nat) (a : ndarray) : ndarray :=
  cols_from (neg_bound k (shape1 a)) a.

Definition Qnat (n : nat) : Q := inject_Z (Z.of_nat n).

(** [np.linspace(start, stop, num, endpoint=False)]: [num] points
    [start + t * step] with [step = (stop - start) / num]. *)
Definition linspace (start stop : Q) (num : nat) : list Q :=
  map (fun t => (start + Qnat t * ((stop - start) / Qnat num))%Q) (seq 0 num).

(** Broadcasting of two axis lengths: equal, or one of them is 1. *)
Definition bshape (m n : nat) : option nat :=
  if m =? n then Some m
  else if m =? 1 then Some n
  else if n =? 1 then Some m
  else None.

(** Index into an axis that is stretched when its length is 1. *)
Definition bidx (len i : nat) : nat := if len =? 1 then 0 else i.

Definition bat2 (a : ndarray) (c t : nat) : Q :=
  at2 a (bidx (shape0 a) c) (bidx (shape1 a) t).

(** [a * w] for a 2-D [a] and a 1-D [w]; [None] is numpy's
    "operands could not be broadcast together". *)
Definition mul_vec (a : ndarray) (w : list Q) : option ndarray :=
  match bshape (shape1 a) (length w) with
  | None => None
  | Some n =>
      Some (map (fun c =>
              map (fun t => (bat2 a c t * nth (bidx (length w) t) w 0)%Q)
                  (seq 0 n))
            (seq 0 (shape0 a)))
  end.

(** [a + b] for 2-D arrays. *)
Definition add (a b : ndarray) : option ndarray :=
  match bshape (shape0 a) (shape0 b), bshape (shape1 a) (shape1 b) with
  | Some m, Some n =>
      Some (map (fun c =>
              map (fun t => (bat2 a c t + bat2 b c t)%Q) (seq 0 n))
            (seq 0 m))
  | _, _ => None
  end.

Definition clip1 (lo hi x : Q) : Q :=
  if Qle_bool x lo then lo else if Qle_bool hi x then hi else x.

(** [np.clip(a, lo, hi)] *)
Definition clip (a : ndarray) (lo hi : Q) : ndarray :=
  map (map (clip1 lo hi)) a.

(** The samples of [a] in the order [tobytes] writes them (row-major). *)
Definition ravel (a : ndarray) : list Q := concat a.

End Numpy.
Import Numpy.

(** ** Bytes handed to the transport *)

(** A yielded byte string is either literal bytes or
    [astype(np.float32).tobytes()] of a sample sequence: four bytes per
    sample, little-endian IEEE binary32, carried here by the samples. *)
Inductive bytes : Type :=
| Raw (b : list Z)
| Float32 (samples : list Q).

(** [np.clip(a, -1, 1).astype(np.float32).tobytes()] *)
Definition pcm_bytes (a : ndarray) : bytes :=
  Float32 (ravel (clip a (-1) 1)).

(** ** crossfade_pcm *)

Definition crossfade_pcm (prev_pcm : option ndarray) (next_pcm : ndarray)
    (fade_samples : nat) : result (option ndarray * ndarray) :=
  match prev_pcm with
  | None => Ok (None, next_pcm)
  | Some prev =>
      if (shape1 prev <? fade_samples) || (shape1 next_pcm <? fade_samples)
      then Ok (None, next_pcm)
      else
        let fade_out := linspace 1 0 fade_samples in
        let fade_in := linspace 0 1 fade_samples in
        match mul_vec (cols_from_neg fade_samples prev) fade_out with
        | None => Raise ValueError
        | Some faded_prev =>
            match mul_vec (cols_to fade_samples next_pcm) fade_in with
            | None => Raise ValueError
            | Some faded_next =>
                match add faded_prev faded_next with
                | None => Raise ValueError
                | Some blended =>
                    Ok (Some blended, cols_from fade_samples next_pcm)
                end
            end
        end
  end.

(** ** Request lifecycle statuses, events and the effect monad *)

(** The members of [TTSStatus] the endpoint records. *)
Inductive TTSStatus : Type :=
| INITIALIZING
| PROCESSING_TEXT
| CHUNKING
| GENERATING_AUDIO
| CONCATENATING
| FINALIZING
| COMPLETED
| ERROR.

Inductive event : Type :=
| EvStatus (s : TTSStatus)      (* update_tts_status(request_id, s, ...) *)
| EvGenerate (chunk : string)   (* model.generate(text=chunk, ...) is called *)
| EvYield (b : bytes)           (* yield b *)
| EvGc                          (* gc.collect(); torch.cuda.empty_cache() *)
| EvCleanup.                    (* cleanup_memory() *)

(** A computation performs events and then returns or raises. *)
Definition M (A : Type) : Type := (list event * result A)%type.

Definition ret {A} (a : A) : M A := ([], Ok a).

Definition bind {A B} (m : M A) (f : A -> M B) : M B :=
  match m with
  | (tr, Ok a) => let (tr', r) := f a in (tr ++ tr', r)
  | (tr, Raise e) => (tr, Raise e)
  end.

Definition emit (e : event) : M unit := ([e], Ok tt).

Definition raise {A} (e : exn) : M A := ([], Raise e).

Definition lift {A} (r : result A) : M A := ([], r).

(** [try: body / except Exception as e: handler e] *)
Definition try_except {A} (body : M A) (handler : exn -> M A) : M A :=
  match body with
  | (tr, Raise e) => let (tr', r) := handler e in (tr ++ tr', r)
  | (tr, Ok a) => (tr, Ok a)
  end.

(** [try: body / finally: final]; an exception of [final] replaces the
    outcome of [body]. *)
Definition try_finally {A} (body : M A) (final : M unit) : M A :=
  match body, final with
  | (tr, r), (tr', Ok _) => (tr ++ tr', r)
  | (tr, _), (tr', Raise e) => (tr ++ tr', Raise e)
  end.

Declare Scope monad_scope.
Delimit Scope monad_scope with monad.
Notation "x <- m ;; k" := (bind m (fun x => k))
  (at level 61, m at next level, right associativity) : monad_scope.
Notation "m ;; k" := (bind m (fun _ => k))
  (at level 61, right associativity) : monad_scope.
Local Open Scope monad_scope.

Definition when (b : bool) (m : M unit) : M unit := if b then m else ret tt.

(** Projections of a trace. *)
Definition statuses (tr : list event) : list TTSStatus :=
  flat_map (fun e => match e with EvStatus s => [s] | _ => [] end) tr.

Definition yields (tr : list event) : list bytes :=
  flat_map (fun e => match e with EvYield b => [b] | _ => [] end) tr.

Definition calls (tr : list event) : list string :=
  flat_map (fun e => match e with EvGenerate c => [c] | _ => [] end) tr.

Definition cleanups (tr : list event) : nat :=
  length (filter (fun e => match e with EvCleanup => true | _ => false end) tr).

(** ** Collaborators and configuration *)

Record Config : Type := {
  MAX_TOTAL_LENGTH : nat;
  MAX_CHUNK_LENGTH : nat;
  MEMORY_CLEANUP_INTERVAL : Z;
  ENABLE_MEMORY_MONITORING : bool
}.

(** The loaded model: its sample rate and [generate], with the voice and
    the sampling parameters of the request already fixed. *)
Record Model : Type := {
  sr : nat;
  generate : string -> result ndarray
}.

Record StreamingSettings : Type := {
  chunk_size : nat;
  strategy : string;
  quality : string
}.

(** The collaborators imported from [app.core], [app.config] and
    [app.core.text_processing]; each may raise. *)
Record World : Type := {
  config : Config;
  get_model : option Model;
  split_text_into_chunks : string -> nat -> result (list string);
  concatenate_audio_chunks : list ndarray -> nat -> result ndarray;
  get_streaming_settings :
    option nat -> option string -> option string -> result StreamingSettings;
  split_text_for_streaming :
    string -> nat -> string -> string -> result (list string)
}.

(** [a % b] on Python integers. *)
Definition py_mod (a b : Z) : result Z :=
  if (b =? 0)%Z then Raise ZeroDivisionError else Ok (a mod b)%Z.

(** [if REQUEST_COUNTER % Config.MEMORY_CLEANUP_INTERVAL == 0: cleanup_memory()] *)
Definition periodic_cleanup (cfg : Config) (REQUEST_COUNTER : nat) : M unit :=
  r <- lift (py_mod (Z.of_nat REQUEST_COUNTER) (MEMORY_CLEANUP_INTERVAL cfg)) ;;
  when (r =? 0)%Z (emit EvCleanup).

(** [if i > 0 and i % 3 == 0: gc.collect(); ...] *)
Definition periodic_gc (i : nat) : M unit :=
  when ((0 <? i) && (i mod 3 =? 0)) (emit EvGc).

(** ** WAV framing *)

Module Wav.

Local Open Scope Z_scope.

(** [v.to_bytes(n, "little")] for [0 <= v < 256 ^ n]. *)
Fixpoint to_le (n : nat) (v : Z) : list Z :=
  match n with
  | O => []
  | S n' => (v mod 256) :: to_le n' (v / 256)
  end.

(** [int.from_bytes(b, "little")] *)
Fixpoint from_le (b : list Z) : Z :=
  match b with
  | [] => 0
  | x :: b' => x + 256 * from_le b'
  end.

(** [b[i:j]] for [0 <= i <= j] *)
Definition slice {A} (i j : nat) (b : list A) : list A :=
  firstn (j - i) (skipn i b).

(** Modelled from the spec: the WAV writer behind [torchaudio.save] is not
    part of the sources.  The spec fixes its output for 32-bit float
    samples as the standard 44-byte RIFF/WAVE/fmt /data header with format
    tag 3, the channel count, sample rate, byte rate, block align and bit
    depth of the saved tensor, and the two size fields of that tensor. *)
Definition wav_header (channels sample_rate frames : nat) : list Z :=
  let data_len := 4 * Z.of_nat channels * Z.of_nat frames in
  [82; 73; 70; 70]                     (* RIFF *)
    ++ to_le 4 (36 + data_len)
    ++ [87; 65; 86; 69]                   (* WAVE *)
    ++ [102; 109; 116; 32]                (* fmt  *)
    ++ to_le 4 16
    ++ to_le 2 3
    ++ to_le 2 (Z.of_nat channels)
    ++ to_le 4 (Z.of_nat sample_rate)
    ++ to_le 4 (Z.of_nat sample_rate * Z.of_nat channels * 4)
    ++ to_le 2 (Z.of_nat channels * 4)
    ++ to_le 2 32
    ++ [100; 97; 116; 97]                 (* data *)
    ++ to_le 4 data_len.

(** Modelled from the spec: [ta.save(buf, torch.zeros(channels, frames),
    sample_rate, format="wav")] followed by [buf.getvalue()]: the header
    and the samples, every float32 zero being four zero bytes. *)
Definition save_zeros (channels frames sample_rate : nat) : list Z :=
  wav_header channels sample_rate frames
    ++ repeat 0 (4 * channels * frames)%nat.

(** [parse_wav_header] of [StreamingExampleUsingPyAudio.py]: channels,
    sample rate, bits per sample, audio format. *)
Definition parse_wav_header (header_bytes : list Z)
  : result (Z * Z * Z * Z) :=
  if (length header_bytes <? 44)%nat then Raise ValueError
  else
    let channels := from_le (slice 22 24 header_bytes) in
    let sample_rate := from_le (slice 24 28 header_bytes) in
    let bits_per_sample := from_le (slice 34 36 header_bytes) in
    let audio_format := from_le (slice 20 22 header_bytes) in
    Ok (channels, sample_rate, bits_per_sample, audio_format).

End Wav.

(** The buffer [generate_speech_internal] returns: what [ta.save] wrote for
    [final_audio] at [sample_rate]. *)
Record WavBuffer : Type := {
  saved_audio : ndarray;
  saved_rate : nat
}.

(** ** generate_speech_streaming *)

(** [if np_pcm.shape[0] < np_pcm.shape[-1]: np_pcm = np_pcm.T] *)
Definition orient (np_pcm : ndarray) : ndarray :=
  if shape0 np_pcm <? shape1 np_pcm then transpose np_pcm else np_pcm.

(** The debug line evaluates [np_pcm.min()] and [np_pcm.max()], which raise
    on an array without elements. *)
Definition debug_min_max (np_pcm : ndarray) : result unit :=
  if size np_pcm =? 0 then Raise ValueError else Ok tt.

(** [a[:, :-fade_samples] if a.shape[1] > fade_samples else a] *)
Definition chunk_to_stream (fade_samples : nat) (a : ndarray) : ndarray :=
  if fade_samples <? shape1 a then cols_to_neg fade_samples a else a.

(** The branch on [prev_pcm] of the loop body: what one buffer yields. *)
Definition stream_pcm (prev_pcm : option ndarray) (np_pcm : ndarray)
    (fade_samples : nat) : M unit :=
  match prev_pcm with
  | None =>
      emit (EvYield (pcm_bytes (chunk_to_stream fade_samples np_pcm)))
  | Some _ =>
      ct <- lift (crossfade_pcm prev_pcm np_pcm fade_samples) ;;
      let (cross, np_pcm_trimmed) := ct : option ndarray * ndarray in
      match cross with
      | Some c => emit (EvYield (pcm_bytes c))
      | None => ret tt
      end ;;
      emit (EvYield (pcm_bytes (chunk_to_stream fade_samples np_pcm_trimmed)))
  end.

(** [for i, chunk in enumerate(chunks): ...] from index [i] on. *)
Fixpoint stream_chunks (model : Model) (fade_samples i : nat)
    (prev_pcm : option ndarray) (chunks : list string) : M unit :=
  match chunks with
  | [] => ret tt
  | chunk :: rest =>
      emit (EvGenerate chunk) ;;
      audio_tensor <- lift (generate model chunk) ;;
      let np_pcm := orient audio_tensor in
      lift (debug_min_max np_pcm) ;;
      stream_pcm prev_pcm np_pcm fade_samples ;;
      periodic_gc i ;;
      stream_chunks model fade_samples (S i) (Some np_pcm) rest
  end.

(** [int(sample_rate * fade_ms / 1000)] with [fade_ms = 10] *)
Definition fade_samples_of (sample_rate : nat) : nat :=
  (sample_rate * 10) / 1000.

(** The [try] block of the generator. *)
Definition streaming_body (w : World) (model : Model) (text : string)
    (streaming_chunk_size : option nat)
    (streaming_strategy streaming_quality : option string) : M unit :=
  let sample_rate := sr model in
  streaming_settings <-
    lift (get_streaming_settings w streaming_chunk_size streaming_strategy
            streaming_quality) ;;
  emit (EvStatus CHUNKING) ;;
  chunks <- lift (split_text_for_streaming w text
                    (chunk_size streaming_settings)
                    (strategy streaming_settings)
                    (quality streaming_settings)) ;;
  emit (EvStatus GENERATING_AUDIO) ;;
  let header_data := Wav.save_zeros 1 sample_rate sample_rate in
  let wav_header := firstn 44 header_data in
  emit (EvYield (Raw wav_header)) ;;
  stream_chunks model (fade_samples_of sample_rate) 0 None chunks ;;
  emit (EvStatus COMPLETED).

(** The generator, run to its end with the global [REQUEST_COUNTER] at the
    given value on entry; the counter afterwards and what happened. *)
Definition generate_speech_streaming (w : World) (REQUEST_COUNTER : nat)
    (text : string) (streaming_chunk_size : option nat)
    (streaming_strategy streaming_quality : option string) : nat * M unit :=
  let REQUEST_COUNTER := REQUEST_COUNTER + 1 in
  (REQUEST_COUNTER,
   emit (EvStatus INITIALIZING) ;;
   match get_model w with
   | None =>
       emit (EvStatus ERROR) ;;
       raise (HTTPException 500)
   | Some model =>
       when (ENABLE_MEMORY_MONITORING (config w)) (emit (EvStatus INITIALIZING)) ;;
       emit (EvStatus PROCESSING_TEXT) ;;
       if MAX_TOTAL_LENGTH (config w) <? String.length text then
         emit (EvStatus ERROR) ;;
         raise (HTTPException 400)
       else
         try_finally
           (try_except
              (streaming_body w model text streaming_chunk_size
                 streaming_strategy streaming_quality)
              (fun _ => emit (EvStatus ERROR) ;; raise (HTTPException 500)))
           (periodic_cleanup (config w) REQUEST_COUNTER)
   end).

(** ** generate_speech_internal *)

(** [for i, chunk in enumerate(chunks): ...] from index [i] on; the tensors
    appended to [audio_chunks]. *)
Fixpoint generate_chunks (model : Model) (i : nat) (chunks : list string)
  : M (list ndarray) :=
  match chunks with
  | [] => ret []
  | chunk :: rest =>
      emit (EvStatus GENERATING_AUDIO) ;;
      emit (EvGenerate chunk) ;;
      audio_tensor <- lift (generate model chunk) ;;
      periodic_gc i ;;
      more <- generate_chunks model (S i) rest ;;
      ret (audio_tensor :: more)
  end.

(** The [try] block of the complete-file path. *)
Definition internal_body (w : World) (model : Model) (text : string)
  : M WavBuffer :=
  emit (EvStatus CHUNKING) ;;
  chunks <- lift (split_text_into_chunks w text (MAX_CHUNK_LENGTH (config w))) ;;
  emit (EvStatus GENERATING_AUDIO) ;;
  audio_chunks <- generate_chunks model 0 chunks ;;
  final_audio <-
    (if 1 <? length audio_chunks then
       emit (EvStatus CONCATENATING) ;;
       lift (concatenate_audio_chunks w audio_chunks (sr model))
     else
       match audio_chunks with
       | [] => raise IndexError
       | first :: _ => ret first
       end) ;;
  emit (EvStatus FINALIZING) ;;
  let buffer := {| saved_audio := final_audio; saved_rate := sr model |} in
  emit (EvStatus COMPLETED) ;;
  ret buffer.

Definition generate_speech_internal (w : World) (REQUEST_COUNTER : nat)
    (text : string) : nat * M WavBuffer :=
  let REQUEST_COUNTER := REQUEST_COUNTER + 1 in
  (REQUEST_COUNTER,
   emit (EvStatus INITIALIZING) ;;
   match get_model w with
   | None =>
       emit (EvStatus ERROR) ;;
       raise (HTTPException 500)
   | Some model =>
       when (ENABLE_MEMORY_MONITORING (config w)) (emit (EvStatus INITIALIZING)) ;;
       emit (EvStatus PROCESSING_TEXT) ;;
       if MAX_TOTAL_LENGTH (config w) <? String.length text then
         emit (EvStatus ERROR) ;;
         raise (HTTPException 400)
       else
         try_finally
           (try_except
              (internal_body w model text)
              (fun _ => emit (EvStatus ERROR) ;; raise (HTTPException 500)))
           (try_except
              (periodic_cleanup (config w) REQUEST_COUNTER)
              (fun _ => ret tt))
   end).

(** ** validate_audio_file *)

Module Upload.

(** [str.lower()] on the ASCII letters. *)
Definition lower_ascii (c : ascii) : ascii :=
  let n := nat_of_ascii c in
  if (65 <=? n) && (n <=? 90) then ascii_of_nat (n + 32) else c.

Fixpoint lower (s : string) : string :=
  match s with
  | EmptyString => EmptyString
  | String c s' => String (lower_ascii c) (lower s')
  end.

(** [p.rfind(c)], counting from position [i]; [best] is the answer so far. *)
Fixpoint rfind_from (c : ascii) (p : string) (i best : Z) : Z :=
  match p with
  | EmptyString => best
  | String x p' =>
      rfind_from c p' (i + 1)%Z (if Ascii.eqb x c then i else best)
  end.

Definition rfind (c : ascii) (p : string) : Z := rfind_from c p 0%Z (-1)%Z.

(** [p[i:j]] for [0 <= i] *)
Definition substr (i j : Z) (p : string) : string :=
  String.substring (Z.to_nat i) (Z.to_nat (j - i)) p.

(** [p[i:]] for [0 <= i] *)
Definition suffix (i : Z) (p : string) : string :=
  String.substring (Z.to_nat i) (String.length p - Z.to_nat i) p.

Fixpoint all_dots (s : string) : bool :=
  match s with
  | EmptyString => true
  | String c s' => Ascii.eqb c "."%char && all_dots s'
  end.

(** [os.path.splitext(p)] of [posixpath]: the extension starts at the last
    dot of the last path component, unless only dots precede it there. *)
Definition splitext (p : string) : string * string :=
  let sepIndex := rfind "/"%char p in
  let dotIndex := rfind "."%char p in
  if (sepIndex <? dotIndex)%Z && negb (all_dots (substr (sepIndex + 1) dotIndex p))
  then (substr 0 dotIndex p, suffix dotIndex p)
  else (p, EmptyString).

Definition SUPPORTED_AUDIO_FORMATS : list string :=
  [".mp3"; ".wav"; ".flac"; ".m4a"; ".ogg"]%string.

Definition supported (file_ext : string) : bool :=
  existsb (String.eqb file_ext) SUPPORTED_AUDIO_FORMATS.

(** The attributes of an [UploadFile] the validation reads; [size] is
    [None] when the attribute is absent or unset. *)
Record UploadFile : Type := {
  filename : option string;
  size : option Z
}.

Definition max_size : Z := 25 * 1024 * 1024.

(** [hasattr(file, 'size') and file.size and file.size > max_size] *)
Definition too_large (file : UploadFile) : bool :=
  match size file with
  | None => false
  | Some n => negb (n =? 0)%Z && (max_size <? n)%Z
  end.

Definition validate_audio_file (file : UploadFile) : result unit :=
  match filename file with
  | None => Raise (HTTPException 400)
  | Some name =>
      if String.eqb name EmptyString then Raise (HTTPException 400)
      else
        let file_ext := snd (splitext (lower name)) in
        if negb (supported file_ext) then Raise (HTTPException 400)
        else if too_large file then Raise (HTTPException 400)
        else Ok tt
  end.

End Upload.

(** The blended region [crossfade_pcm] computes when both buffers have the
    same number of channels and at least [n > 0] samples. *)
Definition blended_region (prev next : ndarray) (n : nat) : ndarray :=
  let faded_prev :=
    map (fun c => map (fun t =>
           (bat2 (cols_from_neg n prev) c t
            * nth (bidx n t) (linspace 1 0 n) 0)%Q) (seq 0 n))
        (seq 0 (shape0 (cols_from_neg n prev))) in
  let faded_next :=
    map (fun c => map (fun t =>
           (bat2 (cols_to n next) c t
            * nth (bidx n t) (linspace 0 1 n) 0)%Q) (seq 0 n))
        (seq 0 (shape0 (cols_to n next))) in
  map (fun c => map (fun t => (bat2 faded_prev c t + bat2 faded_next c t)%Q)
                    (seq 0 n))
      (seq 0 (shape0 next)).

(** ** Classes of events *)

(** What the streaming loop performs: engine calls, float32 payloads and
    garbage collection. *)
Definition loop_event (e : event) : Prop :=
  match e with
  | EvGenerate _ | EvGc => True
  | EvYield (Float32 _) => True
  | _ => False
  end.

(** What the loop of the complete-file path performs. *)
Definition gen_event (e : event) : Prop :=
  match e with
  | EvStatus GENERATING_AUDIO | EvGenerate _ | EvGc => True
  | _ => False
  end.

(** ** Shapes of a run *)

(** The status updates both paths perform before they look at the text. *)
Definition prologue (w : World) : list event :=
  EvStatus INITIALIZING
    :: (if ENABLE_MEMORY_MONITORING (config w)
        then [EvStatus INITIALIZING] else [])
    ++ [EvStatus PROCESSING_TEXT].

(** The handler of [except Exception as e] in both paths. *)
Definition on_error {A} (_ : exn) : M A :=
  emit (EvStatus ERROR) ;; raise (HTTPException 500).

(** The status the handler adds to a [try] block that ended in [r]. *)
Definition closing {A} (r : result A) : list event :=
  match r with
  | Ok _ => []
  | Raise _ => [EvStatus ERROR]
  end.

(** ** The lifecycle state machine *)







(** A request reaches the [try] block: the model is loaded and the text is
    within the configured length. *)
Definition accepted (w : World) (text : string) : bool :=
  match get_model w with
  | Some _ => String.length text <=? MAX_TOTAL_LENGTH (config w)
  | None => false
  end.

(** ** Closed instances for the examples *)

Definition demo_config (max_len : nat) (interval : Z) : Config :=
  {| MAX_TOTAL_LENGTH := max_len;
     MAX_CHUNK_LENGTH := 100;
     MEMORY_CLEANUP_INTERVAL := interval;
     ENABLE_MEMORY_MONITORING := false |}.

Definition demo_settings : StreamingSettings :=
  {| chunk_size := 100; strategy := "sentence"; quality := "balanced" |}.

(** Collaborators that split every text into the given chunks. *)
Definition demo_world (cfg : Config) (model : option Model)
    (chunks : list string) : World :=
  {| config := cfg;
     get_model := model;
     split_text_into_chunks := fun _ _ => Ok chunks;
     concatenate_audio_chunks := fun audio_chunks _ => Ok (concat audio_chunks);
     get_streaming_settings := fun _ _ _ => Ok demo_settings;
     split_text_for_streaming := fun _ _ _ _ => Ok chunks |}.

(** An engine returning one channel of three samples for each of two
    segments, shape [(1, 3)]. *)
Definition mono_engine (chunk : string) : result ndarray :=
  if String.eqb chunk "one" then Ok [[1 # 8; 2 # 8; 3 # 8]]%Q
  else if String.eqb chunk "two" then Ok [[4 # 8; 5 # 8; 6 # 8]]%Q
  else Raise EngineError.

(** An engine returning three channels of three samples, shape [(3, 3)]. *)
Definition square_engine (chunk : string) : result ndarray :=
  if String.eqb chunk "one" then
    Ok [[1 # 16; 2 # 16; 3 # 16];
        [4 # 16; 5 # 16; 6 # 16];
        [7 # 16; 8 # 16; 9 # 16]]%Q
  else if String.eqb chunk "two" then
    Ok [[-1 # 16; -2 # 16; -3 # 16];
        [-4 # 16; -5 # 16; -6 # 16];
        [-7 # 16; -8 # 16; -9 # 16]]%Q
  else Raise EngineError.

(** An engine returning a single sample per segment, shape [(1, 1)]. *)
Definition unit_engine (chunk : string) : result ndarray :=
  if String.eqb chunk "one" then Ok [[1 # 2]]%Q else Ok [[1 # 4]]%Q.

(** A mono engine at 200 Hz: two samples of crossfade. *)
Definition mono_world : World :=
  demo_world (demo_config 100 5)
    (Some {| sr := 200; generate := mono_engine |}) ["one"; "two"]%string.

(** A three-channel engine at 100 Hz: one sample of crossfade. *)
Definition square_world : World :=
  demo_world (demo_config 100 5)
    (Some {| sr := 100; generate := square_engine |}) ["one"; "two"]%string.

(** Three segments, the engine failing on the second. *)
Definition failing_world : World :=
  demo_world (demo_config 100 5)
    (Some {| sr := 200; generate := mono_engine |})
    ["one"; "oops"; "two"]%string.

(** A limit of three characters and cleanup every second request. *)
Definition strict_world : World :=
  demo_world (demo_config 3 2)
    (Some {| sr := 200; generate := mono_engine |}) ["one"; "two"]%string.

(** No model loaded. *)
Definition cold_world : World :=
  demo_world (demo_config 3 2) None ["one"; "two"]%string.

(** The float32 payloads of a trace, every sample in lowest terms. *)
Definition pcm_payloads (tr : list event) : list (list Q) :=
  flat_map (fun e => match e with
                     | EvYield (Float32 samples) => [map Qred samples]
                     | _ => []
                     end) tr.

(** ** Sample ranges *)

(** A sample within the range the stream is clamped to. *)
Definition in_unit_range (x : Q) : Prop := (-1 <= x <= 1)%Q.

(** Every float32 payload of the event holds clamped samples only. *)
Definition clamped_event (e : event) : Prop :=
  match e with
  | EvYield (Float32 samples) => Forall in_unit_range samples
  | _ => True
  end.

(** A yielded byte string whose samples, if it is a payload, are clamped. *)
Definition clamped_bytes (b : bytes) : Prop :=
  match b with
  | Raw _ => True
  | Float32 samples => Forall in_unit_range samples
  end.

(** ** Garbage collection inside the loops *)

(** How often a trace collects garbage. *)
Definition gcs (tr : list event) : nat :=
  length (filter (fun e => match e with EvGc => true | _ => false end) tr).

(** The chunk indices after which the loops collect garbage. *)
Definition gc_due (i : nat) : bool := (0 <? i) && (i mod 3 =? 0).

(** ** The example clients *)

(** [stream_and_play_pyaudio] and [stream_and_play_sd] of the two example
    scripts, from the response body on.  [r.iter_content(chunk_size=4096)]
    is the list of byte chunks it produces. *)
Module Client.

Inductive error : Type :=
| NoHeader                       (* RuntimeError("No WAV header received") *)
| HeaderTooShort                 (* ValueError of parse_wav_header *)
| Unsupported (audio_format bits_per_sample : Z)   (* RuntimeError *)
| BadBuffer.                     (* ValueError of np.frombuffer or reshape *)

Inductive outcome (A : Type) : Type :=
| Done (a : A)
| Failed (e : error).
Arguments Done {A} a.
Arguments Failed {A} e.

(** [while len(wav_header) < 44: chunk = next(it); ...]: the header, the
    remainder of the chunk that completed it, and the iterator left. *)
Fixpoint read_header (wav_header remainder : list Z) (it : list (list Z))
  : outcome (list Z * list Z * list (list Z)) :=
  if length wav_header <? 44 then
    match it with
    | [] => Failed NoHeader
    | chunk :: it' =>
        let needed := 44 - length wav_header in
        read_header (wav_header ++ firstn needed chunk)
          (if needed <? length chunk then skipn needed chunk else [])
          it'
    end
  else Done (wav_header, remainder, it).

Inductive dtype : Type := int16 | float32.

Definition itemsize (d : dtype) : nat :=
  match d with
  | int16 => 2
  | float32 => 4
  end.

(** The choice of the sample type from the parsed header. *)
Definition select_dtype (audio_format bits_per_sample : Z) : outcome dtype :=
  if ((audio_format =? 1) && (bits_per_sample =? 16))%Z then Done int16
  else if ((audio_format =? 3) && (bits_per_sample =? 32))%Z then Done float32
  else Failed (Unsupported audio_format bits_per_sample).

(** The items of [size] bytes a buffer splits into, at most [fuel] of them. *)
Fixpoint items (fuel size : nat) (b : list Z) : list (list Z) :=
  match fuel, b with
  | S fuel', _ :: _ => firstn size b :: items fuel' size (skipn size b)
  | _, _ => []
  end.

(** [np.frombuffer(b, dtype)]: the buffer must hold whole items. *)
Definition frombuffer (d : dtype) (b : list Z) : outcome (list (list Z)) :=
  if length b mod itemsize d =? 0 then Done (items (length b) (itemsize d) b)
  else Failed BadBuffer.

(** [data.reshape(-1, channels)] when [channels > 1]: the items must fill
    whole frames.  The array keeps its items in the same order. *)
Definition reshape (channels : Z) (data : list (list Z))
  : outcome (list (list Z)) :=
  if (1 <? channels)%Z then
    if (Z.of_nat (length data) mod channels =? 0)%Z then Done data
    else Failed BadBuffer
  else Done data.

(** [audio_chunk.tobytes()] *)
Definition tobytes (data : list (list Z)) : list Z := concat data.

(** One step of [audio_gen]: the array made of a chunk. *)
Definition decode (d : dtype) (channels : Z) (chunk : list Z)
  : outcome (list (list Z)) :=
  match frombuffer d chunk with
  | Failed e => Failed e
  | Done data => reshape channels data
  end.

(** [for audio_chunk in audio_gen(): stream.write(...)], the remainder
    being the first chunk: the buffers written to the device and the error
    that stopped the loop, if any.  Empty chunks are skipped. *)
Fixpoint play (d : dtype) (channels : Z) (chunks : list (list Z))
  : list (list Z) * option error :=
  match chunks with
  | [] => ([], None)
  | chunk :: rest =>
      match chunk with
      | [] => play d channels rest
      | _ :: _ =>
          match decode d channels chunk with
          | Failed e => ([], Some e)
          | Done data =>
              let (written, err) := play d channels rest in
              (tobytes data :: written, err)
          end
      end
  end.

(** The header step of [parse_wav_header] as the clients see it. *)
Definition parse (header_bytes : list Z) : outcome (Z * Z * Z * Z) :=
  match Wav.parse_wav_header header_bytes with
  | Ok fields => Done fields
  | Raise _ => Failed HeaderTooShort
  end.

(** The client on a response body: the stream parameters it reports and
    what it writes to the audio device. *)
Definition stream_and_play (it : list (list Z))
  : outcome (Z * Z * dtype * (list (list Z) * option error)) :=
  match read_header [] [] it with
  | Failed e => Failed e
  | Done (wav_header, remainder, it') =>
      match parse wav_header with
      | Failed e => Failed e
      | Done (channels, sample_rate, bits_per_sample, audio_format) =>
          match select_dtype audio_format bits_per_sample with
          | Failed e => Failed e
          | Done d =>
              Done (channels, sample_rate, d,
                    play d channels (remainder :: it'))
          end
      end
  end.

End Client.

(** A chunk the client can decode: whole items, and whole frames when the
    stream has several channels. *)
Definition whole_frames (d : Client.dtype) (channels : Z) (chunk : list Z)
  : Prop :=
  length chunk mod Client.itemsize d = 0
  /\ ((1 < channels)%Z ->
      (Z.of_nat (length chunk / Client.itemsize d) mod channels = 0)%Z).

(** ** The upload endpoints *)

(** [text_to_speech_with_upload] and [stream_text_to_speech_with_upload],
    with the temporary voice files they create.  The file system is the
    list of paths that exist; the process state also holds the global
    [REQUEST_COUNTER] and, as a log, the events of the generations run. *)
Module Endpoints.

(** Whitespace for [str.strip()], among the ASCII characters: tab to
    carriage return, the four separators 28 to 31, and the space. *)
Definition is_space (c : ascii) : bool :=
  let n := nat_of_ascii c in
  ((9 <=? n) && (n <=? 13)) || ((28 <=? n) && (n <=? 32)).

Fixpoint lstrip (s : string) : string :=
  match s with
  | EmptyString => EmptyString
  | String c s' => if is_space c then lstrip s' else s
  end.

Fixpoint rstrip (s : string) : string :=
  match s with
  | EmptyString => EmptyString
  | String c s' =>
      match rstrip s' with
      | EmptyString => if is_space c then EmptyString else String c EmptyString
      | r => String c r
      end
  end.

(** [s.strip()] *)
Definition strip (s : string) : string := lstrip (rstrip s).

(** An uploaded file: what the validation reads, and [await file.read()]. *)
Record VoiceUpload : Type := {
  meta : Upload.UploadFile;
  read : result (list Z)
}.

(** The deployment: configuration, voice library, operating system, and
    the collaborators of the generation once the voice sample is fixed. *)
Record Deployment : Type := {
  VOICE_SAMPLE_PATH : string;
  get_voice_path : string -> option string;
  world_with_voice : string -> World;
  (* tempfile.mkstemp(suffix, prefix), given the files that exist *)
  mkstemp : list string -> string -> string -> result string;
  (* whether writing the content to the new file succeeds *)
  write_ok : string -> list Z -> bool;
  (* whether os.unlink succeeds *)
  unlink_ok : string -> bool
}.

Record Server : Type := {
  files : list string;
  request_counter : nat;
  log : list event
}.

Definition openai_voices : list string :=
  ["alloy"; "echo"; "fable"; "onyx"; "nova"; "shimmer"]%string.

(** [resolve_voice_path]; the two fallbacks differ in what they print. *)
Definition resolve_voice_path (d : Deployment) (voice_name : option string)
  : string :=
  match voice_name with
  | None => VOICE_SAMPLE_PATH d
  | Some name =>
      if String.eqb name EmptyString then VOICE_SAMPLE_PATH d
      else
        match get_voice_path d name with
        | None =>
            if existsb (String.eqb (Upload.lower name)) openai_voices
            then VOICE_SAMPLE_PATH d
            else VOICE_SAMPLE_PATH d
        | Some voice_path => voice_path
        end
  end.

(** [if temp_voice_path and os.path.exists(temp_voice_path): try:
    os.unlink(temp_voice_path) except: ...] *)
Definition cleanup_temp (d : Deployment) (temp_voice_path : option string)
    (st : Server) : Server :=
  match temp_voice_path with
  | None => st
  | Some path =>
      if negb (String.eqb path EmptyString)
         && existsb (String.eqb path) (files st)
         && unlink_ok d path
      then {| files := remove string_dec path (files st);
              request_counter := request_counter st;
              log := log st |}
      else st
  end.

(** What [except HTTPException: raise / except Exception as e: raise
    HTTPException(500)] makes of an exception. *)
Definition as_http (e : exn) : exn :=
  match e with
  | HTTPException code => HTTPException code
  | _ => HTTPException 500
  end.

(** The [try] block that validates and stores an uploaded voice file; the
    path of the temporary file on success. *)
Definition store_upload (d : Deployment) (voice_file : VoiceUpload)
    (st : Server) : Server * result string :=
  match Upload.validate_audio_file (meta voice_file) with
  | Raise e => (st, Raise (as_http e))
  | Ok _ =>
      match Upload.filename (meta voice_file) with
      | None => (st, Raise (HTTPException 500))
      | Some name =>
          let file_ext := snd (Upload.splitext (Upload.lower name)) in
          match mkstemp d (files st) file_ext "voice_sample_" with
          | Raise _ => (st, Raise (HTTPException 500))
          | Ok temp_voice_path =>
              let st1 := {| files := temp_voice_path :: files st;
                            request_counter := request_counter st;
                            log := log st |} in
              match read voice_file with
              | Raise _ =>
                  (cleanup_temp d (Some temp_voice_path) st1,
                   Raise (HTTPException 500))
              | Ok file_content =>
                  if write_ok d temp_voice_path file_content
                  then (st1, Ok temp_voice_path)
                  else (cleanup_temp d (Some temp_voice_path) st1,
                        Raise (HTTPException 500))
              end
          end
      end
  end.

(** [await generate_speech_internal(text=input, voice_sample_path=...)] *)
Definition run_internal (d : Deployment) (voice_sample_path text : string)
    (st : Server) : Server * result WavBuffer :=
  let (n, run) :=
    generate_speech_internal (world_with_voice d voice_sample_path)
      (request_counter st) text in
  ({| files := files st; request_counter := n; log := log st ++ fst run |},
   snd run).

(** The generator [generate_speech_streaming(...)], iterated to its end. *)
Definition run_streaming (d : Deployment) (voice_sample_path text : string)
    (cs : option nat) (ss sq : option string) (st : Server)
  : Server * result unit :=
  let (n, run) :=
    generate_speech_streaming (world_with_voice d voice_sample_path)
      (request_counter st) text cs ss sq in
  ({| files := files st; request_counter := n; log := log st ++ fst run |},
   snd run).

Definition text_to_speech_with_upload (d : Deployment) (input : string)
    (voice : option string) (voice_file : option VoiceUpload) (st : Server)
  : Server * result WavBuffer :=
  if String.eqb (strip input) EmptyString then (st, Raise (HTTPException 400))
  else
    let input := strip input in
    match voice_file with
    | None =>
        let voice_sample_path := resolve_voice_path d voice in
        let (st1, r) := run_internal d voice_sample_path input st in
        (cleanup_temp d None st1, r)
    | Some file =>
        match store_upload d file st with
        | (st1, Raise e) => (st1, Raise e)
        | (st1, Ok temp_voice_path) =>
            let (st2, r) := run_internal d temp_voice_path input st1 in
            (cleanup_temp d (Some temp_voice_path) st2, r)
        end
    end.

(** [value and value not in allowed] *)
Definition given_and_not_in (value : option string) (allowed : list string)
  : bool :=
  match value with
  | None => false
  | Some v =>
      negb (String.eqb v EmptyString) && negb (existsb (String.eqb v) allowed)
  end.

(** The endpoint returns a response whose body is the generator
    [streaming_with_cleanup()]; the body runs when it is iterated. *)
Definition stream_text_to_speech_with_upload (d : Deployment)
    (input : string) (voice : option string)
    (streaming_chunk_size : option nat)
    (streaming_strategy streaming_quality : option string)
    (voice_file : option VoiceUpload) (st : Server)
  : Server * result (Server -> Server * result unit) :=
  if String.eqb (strip input) EmptyString then (st, Raise (HTTPException 400))
  else
    let input := strip input in
    if given_and_not_in streaming_strategy
         ["sentence"; "paragraph"; "fixed"; "word"]%string
    then (st, Raise (HTTPException 400))
    else if given_and_not_in streaming_quality
              ["fast"; "balanced"; "high"]%string
    then (st, Raise (HTTPException 400))
    else
      let streaming_with_cleanup temp_voice_path voice_sample_path :=
        fun st' =>
          let (st'', r) :=
            run_streaming d voice_sample_path input streaming_chunk_size
              streaming_strategy streaming_quality st' in
          (cleanup_temp d temp_voice_path st'', r) in
      match voice_file with
      | None =>
          (st, Ok (streaming_with_cleanup None (resolve_voice_path d voice)))
      | Some file =>
          match store_upload d file st with
          | (st1, Raise e) => (st1, Raise e)
          | (st1, Ok temp_voice_path) =>
              (st1, Ok (streaming_with_cleanup (Some temp_voice_path)
                          temp_voice_path))
          end
      end.

End Endpoints.

(** A string of whitespace only (the empty string included). *)
Fixpoint blank (s : string) : bool :=
  match s with
  | EmptyString => true
  | String c s' => Endpoints.is_space c && blank s'
  end.

(** The operating system behaves: [mkstemp] returns a path that is not
    empty and did not exist, and [os.unlink] succeeds. *)
Definition well_behaved (d : Endpoints.Deployment) (existing : list string)
  : Prop :=
  (forall path, Endpoints.unlink_ok d path = true)
  /\ (forall suffix prefix path,
        Endpoints.mkstemp d existing suffix prefix = Ok path ->
        path <> EmptyString /\ ~ In path existing).

(** A deployment whose [mkstemp] names its file after the prefix and the
    suffix, and a server with no file yet. *)
Definition demo_deployment : Endpoints.Deployment :=
  {| Endpoints.VOICE_SAMPLE_PATH := "voice-sample.mp3";
     Endpoints.get_voice_path := fun _ => None;
     Endpoints.world_with_voice := fun _ =>
       demo_world (demo_config 100 5)
         (Some {| sr := 200; generate := mono_engine |})
         ["one"; "two"]%string;
     Endpoints.mkstemp := fun _ suffix prefix =>
       Ok (prefix ++ "0" ++ suffix)%string;
     Endpoints.write_ok := fun _ _ => true;
     Endpoints.unlink_ok := fun _ => true |}.

Definition demo_upload : Endpoints.VoiceUpload :=
  {| Endpoints.meta :=
       {| Upload.filename := Some "Me.WAV"%string; Upload.size := Some 10%Z |};
     Endpoints.read := Ok [82; 73; 70; 70]%Z |}.

Definition demo_server : Endpoints.Server :=
  {| Endpoints.files := []; Endpoints.request_counter := 0;
     Endpoints.log := [] |}.

(** The response body the streaming endpoint builds for [demo_upload]. *)
Definition demo_stream_body (st : Endpoints.Server)
  : Endpoints.Server * result unit :=
  let (st2, r) :=
    Endpoints.run_streaming demo_deployment "voice_sample_0.wav" "one two"
      None None None st in
  (Endpoints.cleanup_temp demo_deployment (Some "voice_sample_0.wav"%string)
     st2, r).

(** The two errors a request may end in. *)
Definition http_400_or_500 (e : exn) : Prop :=
  e = HTTPException 400 \/ e = HTTPException 500.

(** * Properties *)

(** ** Arrays *)

Section ArrayFacts.

Lemma nth_map_seq {A} (f : nat -> A) (n i : nat) (d : A) :
  i < n -> nth i (map f (seq 0 n)) d = f i.
Proof.
  intros Hi.
  rewrite (nth_indep _ d (f 0)) by (rewrite length_map, length_seq; exact Hi).
  rewrite map_nth, seq_nth by exact Hi.
  reflexivity.
Qed.

Lemma bidx_small (len i : nat) : i < len -> bidx len i = i.
Proof.
  unfold bidx. intros Hi.
  destruct (len =? 1) eqn:E; [apply Nat.eqb_eq in E; lia | reflexivity].
Qed.

Lemma bshape_same (n : nat) : bshape n n = Some n.
Proof. unfold bshape. now rewrite Nat.eqb_refl. Qed.

Lemma shape1_pos_shape0 (a : ndarray) : 0 < shape1 a -> 0 < shape0 a.
Proof. destruct a; simpl; lia. Qed.

(** The shape of [map f (seq 0 m)] when every [f c] has length [n]. *)
Lemma shape0_table (f : nat -> list Q) (m : nat) :
  shape0 (map f (seq 0 m)) = m.
Proof. unfold shape0. now rewrite length_map, length_seq. Qed.

Lemma shape1_table (f : nat -> list Q) (m n : nat) :
  0 < m -> (forall c, length (f c) = n) -> shape1 (map f (seq 0 m)) = n.
Proof.
  intros Hm Hf. destruct m as [|m]; [lia|]. simpl. apply Hf.
Qed.

Lemma at2_table (g : nat -> nat -> Q) (m n c t : nat) :
  c < m -> t < n ->
  at2 (map (fun c => map (g c) (seq 0 n)) (seq 0 m)) c t = g c t.
Proof.
  intros Hc Ht. unfold at2.
  rewrite (nth_map_seq (fun c => map (g c) (seq 0 n))) by exact Hc.
  now rewrite nth_map_seq.
Qed.

Lemma shape0_cols_from (k : nat) (a : ndarray) :
  shape0 (cols_from k a) = shape0 a.
Proof. unfold shape0, cols_from. apply length_map. Qed.

Lemma shape0_cols_to (k : nat) (a : ndarray) :
  shape0 (cols_to k a) = shape0 a.
Proof. unfold shape0, cols_to. apply length_map. Qed.

Lemma shape1_cols_from (k : nat) (a : ndarray) :
  shape1 (cols_from k a) = shape1 a - k.
Proof. destruct a; simpl; [reflexivity | apply length_skipn]. Qed.

Lemma shape1_cols_to (k : nat) (a : ndarray) :
  k <= shape1 a -> shape1 (cols_to k a) = k.
Proof.
  destruct a; simpl; intros H; [lia|]. rewrite length_firstn. lia.
Qed.

Lemma at2_cols_from (k : nat) (a : ndarray) (c t : nat) :
  at2 (cols_from k a) c t = at2 a c (k + t).
Proof.
  unfold at2, cols_from.
  destruct (Nat.lt_ge_cases c (length a)) as [Hc | Hc].
  - rewrite (nth_indep _ [] (skipn k [])) by (now rewrite length_map).
    rewrite map_nth. apply nth_skipn.
  - rewrite !(nth_overflow _ []) by (try rewrite length_map; exact Hc).
    rewrite !(nth_overflow []) by (simpl; lia). reflexivity.
Qed.

Lemma at2_cols_to (k : nat) (a : ndarray) (c t : nat) :
  t < k -> at2 (cols_to k a) c t = at2 a c t.
Proof.
  intros Ht. unfold at2, cols_to.
  destruct (Nat.lt_ge_cases c (length a)) as [Hc | Hc].
  - rewrite (nth_indep _ [] (firstn k [])) by (now rewrite length_map).
    rewrite map_nth, nth_firstn.
    apply Nat.ltb_lt in Ht. now rewrite Ht.
  - rewrite !(nth_overflow _ []) by (try rewrite length_map; exact Hc).
    reflexivity.
Qed.

End ArrayFacts.

(** ** crossfade_pcm *)

Section CrossfadeFacts.

Lemma length_linspace (a b : Q) (n : nat) : length (linspace a b n) = n.
Proof. unfold linspace. now rewrite length_map, length_seq. Qed.

Lemma nth_linspace (a b : Q) (n t : nat) :
  t < n ->
  nth t (linspace a b n) 0%Q = (a + Qnat t * ((b - a) / Qnat n))%Q.
Proof. intros Ht. unfold linspace. now rewrite nth_map_seq. Qed.

Lemma Qnat_nonzero (n : nat) : 0 < n -> ~ (Qnat n == 0)%Q.
Proof.
  intros Hn. unfold Qnat, Qeq. simpl. lia.
Qed.

(** The two ramps are the weights [1 - t/N] and [t/N]. *)
Lemma fade_out_weight (n t : nat) :
  t < n -> (nth t (linspace 1 0 n) 0 == 1 - Qnat t / Qnat n)%Q.
Proof.
  intros Ht. rewrite nth_linspace by exact Ht.
  field. apply Qnat_nonzero. lia.
Qed.

Lemma fade_in_weight (n t : nat) :
  t < n -> (nth t (linspace 0 1 n) 0 == Qnat t / Qnat n)%Q.
Proof.
  intros Ht. rewrite nth_linspace by exact Ht.
  field. apply Qnat_nonzero. lia.
Qed.

Lemma mul_vec_same (a : ndarray) (w : list Q) (n : nat) :
  shape1 a = n -> length w = n ->
  mul_vec a w =
  Some (map (fun c => map (fun t => (bat2 a c t * nth (bidx n t) w 0)%Q)
                          (seq 0 n))
            (seq 0 (shape0 a))).
Proof.
  intros Ha Hw. unfold mul_vec. rewrite Ha, Hw, bshape_same. reflexivity.
Qed.

Lemma neg_bound_pos (k len : nat) : 0 < k -> neg_bound k len = len - k.
Proof.
  unfold neg_bound. intros Hk.
  destruct (k =? 0) eqn:E; [apply Nat.eqb_eq in E; lia | reflexivity].
Qed.

Lemma shape0_cols_from_neg (k : nat) (a : ndarray) :
  shape0 (cols_from_neg k a) = shape0 a.
Proof. apply shape0_cols_from. Qed.

Lemma shape1_cols_from_neg (k : nat) (a : ndarray) :
  0 < k -> k <= shape1 a -> shape1 (cols_from_neg k a) = k.
Proof.
  intros Hk Hle. unfold cols_from_neg.
  rewrite shape1_cols_from, neg_bound_pos by exact Hk. lia.
Qed.

Lemma at2_cols_from_neg (k : nat) (a : ndarray) (c t : nat) :
  0 < k -> at2 (cols_from_neg k a) c t = at2 a c (shape1 a - k + t).
Proof.
  intros Hk. unfold cols_from_neg.
  now rewrite at2_cols_from, neg_bound_pos.
Qed.

Lemma crossfade_guard_false (prev next : ndarray) (n : nat) :
  n <= shape1 prev -> n <= shape1 next ->
  (shape1 prev <? n) || (shape1 next <? n) = false.
Proof.
  intros H1 H2. apply orb_false_iff. split; apply Nat.ltb_ge; assumption.
Qed.

Lemma crossfade_pcm_blends (prev next : ndarray) (n : nat) :
  0 < n -> shape0 prev = shape0 next ->
  n <= shape1 prev -> n <= shape1 next ->
  crossfade_pcm (Some prev) next n
  = Ok (Some (blended_region prev next n), cols_from n next).
Proof.
  intros Hn Hch Hp Hx.
  assert (Hm : 0 < shape0 next) by (apply shape1_pos_shape0; lia).
  unfold crossfade_pcm.
  rewrite crossfade_guard_false by assumption.
  rewrite (mul_vec_same (cols_from_neg n prev) _ n)
    by (try apply shape1_cols_from_neg; try apply length_linspace; assumption).
  rewrite (mul_vec_same (cols_to n next) _ n)
    by (try apply shape1_cols_to; try apply length_linspace; assumption).
  unfold add.
  rewrite !shape0_table, shape0_cols_from_neg, shape0_cols_to, Hch.
  rewrite bshape_same.
  rewrite !(shape1_table _ _ n)
    by (try (intros; now rewrite length_map, length_seq); exact Hm).
  rewrite bshape_same.
  unfold blended_region.
  rewrite shape0_cols_from_neg, shape0_cols_to, Hch.
  reflexivity.
Qed.

Lemma blended_region_shape (prev next : ndarray) (n : nat) :
  shape0 (blended_region prev next n) = shape0 next
  /\ Forall (fun r => length r = n) (blended_region prev next n).
Proof.
  unfold blended_region. split.
  - apply shape0_table.
  - apply Forall_forall. intros r Hr. apply in_map_iff in Hr.
    destruct Hr as [c [<- _]]. now rewrite length_map, length_seq.
Qed.

Lemma blended_region_at (prev next : ndarray) (n c t : nat) :
  0 < n -> shape0 prev = shape0 next ->
  n <= shape1 prev -> n <= shape1 next ->
  c < shape0 next -> t < n ->
  (at2 (blended_region prev next n) c t
   == at2 prev c (shape1 prev - n + t) * (1 - Qnat t / Qnat n)
      + at2 next c t * (Qnat t / Qnat n))%Q.
Proof.
  intros Hn Hch Hp Hx Hc Ht.
  assert (Hm : 0 < shape0 next) by lia.
  unfold blended_region.
  rewrite shape0_cols_from_neg, shape0_cols_to, Hch.
  rewrite (at2_table _ (shape0 next) n) by assumption.
  unfold bat2 at 1 3.
  rewrite !shape0_table.
  rewrite !(shape1_table _ _ n)
    by (try (intros; now rewrite length_map, length_seq); exact Hm).
  rewrite !bidx_small by assumption.
  rewrite !(at2_table _ (shape0 next) n) by assumption.
  rewrite !bidx_small by assumption.
  unfold bat2.
  rewrite shape0_cols_from_neg, shape0_cols_to, Hch.
  rewrite shape1_cols_from_neg, shape1_cols_to by assumption.
  rewrite !bidx_small by assumption.
  rewrite at2_cols_from_neg, at2_cols_to by assumption.
  rewrite fade_out_weight, fade_in_weight by assumption.
  reflexivity.
Qed.

Lemma clip1_bounds (x : Q) : (-1 <= clip1 (-1) 1 x <= 1)%Q.
Proof.
  unfold clip1.
  destruct (Qle_bool x (-1)) eqn:E1.
  - split; [apply Qle_refl | discriminate].
  - destruct (Qle_bool 1 x) eqn:E2.
    + split; [discriminate | apply Qle_refl].
    + split.
      * apply Qlt_le_weak, Qnot_le_lt. intros H.
        apply Qle_bool_iff in H. congruence.
      * apply Qlt_le_weak, Qnot_le_lt. intros H.
        apply Qle_bool_iff in H. congruence.
Qed.

Lemma clip1_inside (x : Q) : (-1 <= x <= 1)%Q -> (clip1 (-1) 1 x == x)%Q.
Proof.
  intros [Hlo Hhi]. unfold clip1.
  destruct (Qle_bool x (-1)) eqn:E1.
  - apply Qle_bool_iff in E1. apply Qle_antisym; assumption.
  - destruct (Qle_bool 1 x) eqn:E2; [|reflexivity].
    apply Qle_bool_iff in E2. apply Qle_antisym; assumption.
Qed.

(** What [pcm_bytes] carries: the row-major samples, each clamped. *)
Lemma pcm_bytes_samples (a : ndarray) :
  pcm_bytes a = Float32 (map (clip1 (-1) 1) (ravel a)).
Proof.
  unfold pcm_bytes, ravel, clip. now rewrite concat_map.
Qed.

End CrossfadeFacts.

(** ** One buffer of the streaming loop *)

Section StreamPcmFacts.

Lemma stream_pcm_first (np_pcm : ndarray) (n : nat) :
  stream_pcm None np_pcm n
  = ([EvYield (pcm_bytes (chunk_to_stream n np_pcm))], Ok tt).
Proof. reflexivity. Qed.

Lemma stream_pcm_blended (prev next blended trimmed : ndarray) (n : nat) :
  crossfade_pcm (Some prev) next n = Ok (Some blended, trimmed) ->
  stream_pcm (Some prev) next n
  = ([EvYield (pcm_bytes blended);
      EvYield (pcm_bytes (chunk_to_stream n trimmed))], Ok tt).
Proof. intros H. unfold stream_pcm. rewrite H. reflexivity. Qed.

Lemma stream_pcm_passthrough (prev next trimmed : ndarray) (n : nat) :
  crossfade_pcm (Some prev) next n = Ok (None, trimmed) ->
  stream_pcm (Some prev) next n
  = ([EvYield (pcm_bytes (chunk_to_stream n trimmed))], Ok tt).
Proof. intros H. unfold stream_pcm. rewrite H. reflexivity. Qed.

Lemma crossfade_pcm_short (prev next : ndarray) (n : nat) :
  shape1 prev < n \/ shape1 next < n ->
  crossfade_pcm (Some prev) next n = Ok (None, next).
Proof.
  intros H. unfold crossfade_pcm.
  assert (G : (shape1 prev <? n) || (shape1 next <? n) = true).
  { apply orb_true_iff. destruct H as [H | H]; [left | right];
      apply Nat.ltb_lt; exact H. }
  now rewrite G.
Qed.

Lemma chunk_to_stream_long (n : nat) (a : ndarray) :
  n < shape1 a -> chunk_to_stream n a = cols_to_neg n a.
Proof.
  intros H. unfold chunk_to_stream. apply Nat.ltb_lt in H. now rewrite H.
Qed.

Lemma chunk_to_stream_short (n : nat) (a : ndarray) :
  shape1 a <= n -> chunk_to_stream n a = a.
Proof.
  intros H. unfold chunk_to_stream. apply Nat.ltb_ge in H. now rewrite H.
Qed.

Lemma orient_size_pos (a : ndarray) :
  0 < shape1 a -> debug_min_max a = Ok tt.
Proof.
  intros H. unfold debug_min_max, size.
  pose proof (shape1_pos_shape0 a H) as H0.
  destruct (shape0 a * shape1 a =? 0) eqn:E; [|reflexivity].
  apply Nat.eqb_eq in E. nia.
Qed.

End StreamPcmFacts.

(** C2. For two consecutive buffers with the same channels and at least
    [N > 0] samples each, [crossfade_pcm] returns a blended region of
    exactly [N] samples per channel with
    [blended[t] = prev_tail[t] * (1 - t/N) + next_head[t] * (t/N)], and the
    next buffer without its first [N] samples; the loop emits both regions
    as float32 bytes of the samples clamped to [-1, 1]. *)
Theorem crossfade_pcm_linear_blend (prev next : ndarray) (N : nat) :
  0 < N -> shape0 prev = shape0 next ->
  N <= shape1 prev -> N <= shape1 next ->
  exists blended : ndarray,
    crossfade_pcm (Some prev) next N = Ok (Some blended, cols_from N next)
    /\ shape0 blended = shape0 next
    /\ Forall (fun r => length r = N) blended
    /\ (forall c t, c < shape0 next -> t < N ->
          (at2 blended c t
           == at2 prev c (shape1 prev - N + t) * (1 - Qnat t / Qnat N)
              + at2 next c t * (Qnat t / Qnat N))%Q)
    /\ cols_from N next = map (skipn N) next
    /\ stream_pcm (Some prev) next N
       = ([EvYield (Float32 (map (clip1 (-1) 1) (ravel blended)));
           EvYield (Float32 (map (clip1 (-1) 1)
                      (ravel (chunk_to_stream N (cols_from N next)))))],
          Ok tt)
    /\ (forall x, (-1 <= clip1 (-1) 1 x <= 1)%Q
                  /\ ((-1 <= x <= 1)%Q -> (clip1 (-1) 1 x == x)%Q)).
Proof.
  intros HN Hch Hp Hx.
  exists (blended_region prev next N).
  pose proof (crossfade_pcm_blends prev next N HN Hch Hp Hx) as Hcf.
  destruct (blended_region_shape prev next N) as [Hs0 Hs1].
  repeat split; try assumption.
  - intros c t Hc Ht. now apply blended_region_at.
  - rewrite (stream_pcm_blended _ _ _ _ _ Hcf), !pcm_bytes_samples.
    reflexivity.
  - apply clip1_bounds.
  - apply clip1_bounds.
  - apply clip1_inside.
Qed.

Lemma crossfade_pcm_linear_blend_witness :
  exists blended : ndarray,
    crossfade_pcm (Some [[0; 1 # 2; -1 # 2]%Q]) [[1 # 4; 1; 3 # 4; 0]%Q] 2
    = Ok (Some blended, cols_from 2 [[1 # 4; 1; 3 # 4; 0]%Q])
    /\ Forall (fun r => length r = 2) blended.
Proof.
  destruct (crossfade_pcm_linear_blend
              [[0; 1 # 2; -1 # 2]%Q] [[1 # 4; 1; 3 # 4; 0]%Q] 2)
    as [blended [H1 [_ [H3 _]]]];
    [ lia | reflexivity | simpl; lia | simpl; lia | ].
  exists blended. split; assumption.
Defined.



(** ** The streaming loop *)

Section StreamLoopFacts.

Lemma periodic_gc_returns (i : nat) : snd (periodic_gc i) = Ok tt.
Proof.
  unfold periodic_gc, when. now destruct ((0 <? i) && (i mod 3 =? 0)).
Qed.

Lemma bind_trace {A B} (m : M A) (f : A -> M B) :
  fst (bind m f)
  = fst m ++ match snd m with Ok a => fst (f a) | Raise _ => [] end.
Proof.
  destruct m as [tr [a | e]]; simpl.
  - now destruct (f a).
  - now rewrite app_nil_r.
Qed.

(** A chunk whose synthesis and emission succeed. *)
Lemma stream_chunks_cons (model : Model) (n i : nat) (prev : option ndarray)
    (chunk : string) (rest : list string) (t : ndarray) (ys : list event) :
  generate model chunk = Ok t ->
  debug_min_max (orient t) = Ok tt ->
  stream_pcm prev (orient t) n = (ys, Ok tt) ->
  stream_chunks model n i prev (chunk :: rest)
  = (EvGenerate chunk :: ys ++ fst (periodic_gc i)
       ++ fst (stream_chunks model n (S i) (Some (orient t)) rest),
     snd (stream_chunks model n (S i) (Some (orient t)) rest)).
Proof.
  intros Hg Hd Hs. cbn [stream_chunks].
  rewrite Hg.
  cbn -[periodic_gc stream_chunks stream_pcm debug_min_max orient].
  rewrite Hd.
  cbn -[periodic_gc stream_chunks stream_pcm debug_min_max orient].
  rewrite Hs.
  pose proof (periodic_gc_returns i) as Hgc.
  destruct (periodic_gc i) as [gtr gr]. simpl in Hgc. subst gr.
  destruct (stream_chunks model n (S i) (Some (orient t)) rest) as [tr r].
  cbn. reflexivity.
Qed.

(** A chunk on which the engine raises: nothing after the call. *)
Lemma stream_chunks_engine_raises (model : Model) (n i : nat)
    (prev : option ndarray) (chunk : string) (rest : list string) (e : exn) :
  generate model chunk = Raise e ->
  stream_chunks model n i prev (chunk :: rest) = ([EvGenerate chunk], Raise e).
Proof. intros Hg. cbn [stream_chunks]. now rewrite Hg. Qed.

End StreamLoopFacts.

(** C9. The first buffer's tail is held back only when it has strictly more
    than [N] samples.  When it has exactly [N], all of it is emitted at once
    and, the crossfade test being "at least [N]", the same [N] samples are
    the previous tail of the following blended region. *)
Theorem first_buffer_of_exactly_N_is_replayed (model : Model)
    (c1 c2 : string) (t1 t2 : ndarray) (N : nat) :
  0 < N ->
  generate model c1 = Ok t1 -> generate model c2 = Ok t2 ->
  shape0 (orient t1) = shape0 (orient t2) ->
  shape1 (orient t1) = N -> N <= shape1 (orient t2) ->
  (forall np_pcm, N < shape1 np_pcm ->
     stream_pcm None np_pcm N
     = ([EvYield (pcm_bytes (cols_to_neg N np_pcm))], Ok tt))
  /\ (forall np_pcm, shape1 np_pcm <= N ->
        stream_pcm None np_pcm N = ([EvYield (pcm_bytes np_pcm)], Ok tt))
  /\ exists blended : ndarray,
       stream_chunks model N 0 None [c1; c2]
       = ([EvGenerate c1; EvYield (pcm_bytes (orient t1));
           EvGenerate c2; EvYield (pcm_bytes blended);
           EvYield (pcm_bytes
                      (chunk_to_stream N (cols_from N (orient t2))))],
          Ok tt)
       /\ forall c t, c < shape0 (orient t1) -> t < N ->
            (at2 blended c t
             == at2 (orient t1) c t * (1 - Qnat t / Qnat N)
                + at2 (orient t2) c t * (Qnat t / Qnat N))%Q.
Proof.
  intros HN Hg1 Hg2 Hch H1 H2.
  split; [|split].
  - intros np Hlt. now rewrite stream_pcm_first, chunk_to_stream_long.
  - intros np Hle. now rewrite stream_pcm_first, chunk_to_stream_short.
  - exists (blended_region (orient t1) (orient t2) N). split.
    + rewrite (stream_chunks_cons model N 0 None c1 [c2] t1
                 [EvYield (pcm_bytes (orient t1))] Hg1).
      2:{ apply orient_size_pos. lia. }
      2:{ rewrite stream_pcm_first, chunk_to_stream_short by lia.
          reflexivity. }
      rewrite (stream_chunks_cons model N 1 (Some (orient t1)) c2 [] t2
                 [EvYield (pcm_bytes (blended_region (orient t1) (orient t2) N));
                  EvYield (pcm_bytes
                             (chunk_to_stream N (cols_from N (orient t2))))]
                 Hg2).
      2:{ apply orient_size_pos. lia. }
      2:{ apply stream_pcm_blended, crossfade_pcm_blends; try assumption.
          lia. }
      reflexivity.
    + intros c t Hc Ht.
      rewrite blended_region_at by (try assumption; lia).
      replace (shape1 (orient t1) - N + t) with t by lia.
      reflexivity.
Qed.

(** ** Which events each part of the pipeline performs *)

Section EventFacts.

Lemma Forall_bind {A B} (P : event -> Prop) (m : M A) (f : A -> M B) :
  Forall P (fst m) -> (forall a, Forall P (fst (f a))) ->
  Forall P (fst (bind m f)).
Proof.
  intros Hm Hf. rewrite bind_trace. apply Forall_app. split; [exact Hm|].
  destruct (snd m); [apply Hf | constructor].
Qed.

Lemma Forall_emit (P : event -> Prop) (e : event) :
  P e -> Forall P (fst (emit e)).
Proof. intros H. simpl. now constructor. Qed.

Lemma Forall_lift {A} (P : event -> Prop) (r : result A) :
  Forall P (fst (lift r)).
Proof. constructor. Qed.

Lemma Forall_when (P : event -> Prop) (b : bool) (m : M unit) :
  Forall P (fst m) -> Forall P (fst (when b m)).
Proof. intros H. destruct b; simpl; [exact H | constructor]. Qed.

Lemma loop_event_pcm (prev : option ndarray) (np_pcm : ndarray) (n : nat) :
  Forall loop_event (fst (stream_pcm prev np_pcm n)).
Proof.
  unfold stream_pcm. destruct prev as [prev|].
  - apply Forall_bind; [apply Forall_lift|].
    intros [[c|] trimmed].
    + apply Forall_bind; intros; apply Forall_emit; exact I.
    + apply Forall_bind; [constructor | intros; apply Forall_emit; exact I].
  - apply Forall_emit. exact I.
Qed.

Lemma loop_event_gc (i : nat) : Forall loop_event (fst (periodic_gc i)).
Proof. apply Forall_when, Forall_emit. exact I. Qed.

Lemma loop_event_chunks (model : Model) (n : nat) (chunks : list string) :
  forall i prev,
    Forall loop_event (fst (stream_chunks model n i prev chunks)).
Proof.
  induction chunks as [|chunk rest IH]; intros i prev.
  - constructor.
  - cbn [stream_chunks].
    apply Forall_bind; [apply Forall_emit; exact I | intros _].
    apply Forall_bind; [apply Forall_lift | intros t].
    apply Forall_bind; [apply Forall_lift | intros _].
    apply Forall_bind; [apply loop_event_pcm | intros _].
    apply Forall_bind; [apply loop_event_gc | intros _].
    apply IH.
Qed.

Lemma loop_event_statuses (tr : list event) :
  Forall loop_event tr -> statuses tr = [].
Proof.
  induction 1 as [|e tr He _ IH]; [reflexivity|].
  destruct e; simpl in *; try contradiction; exact IH.
Qed.

Lemma loop_event_cleanups (tr : list event) :
  Forall loop_event tr -> cleanups tr = 0.
Proof.
  unfold cleanups. induction 1 as [|e tr He _ IH]; [reflexivity|].
  destruct e; simpl in *; try contradiction; exact IH.
Qed.

Lemma loop_event_yields (tr : list event) :
  Forall loop_event tr -> exists payloads, yields tr = map Float32 payloads.
Proof.
  induction 1 as [|e tr He _ [ps IH]]; [now exists []|].
  destruct e as [s|c|[b|smp]| |]; simpl in *; try contradiction;
    try (now exists ps).
  exists (smp :: ps). simpl. now rewrite IH.
Qed.

Lemma gen_event_chunks (model : Model) (chunks : list string) :
  forall i, Forall gen_event (fst (generate_chunks model i chunks)).
Proof.
  induction chunks as [|chunk rest IH]; intros i.
  - constructor.
  - cbn [generate_chunks].
    apply Forall_bind; [apply Forall_emit; exact I | intros _].
    apply Forall_bind; [apply Forall_emit; exact I | intros _].
    apply Forall_bind; [apply Forall_lift | intros t].
    apply Forall_bind; [apply Forall_when, Forall_emit; exact I | intros _].
    apply Forall_bind; [apply IH | intros more]. constructor.
Qed.


Lemma gen_event_cleanups (tr : list event) :
  Forall gen_event tr -> cleanups tr = 0.
Proof.
  unfold cleanups. induction 1 as [|e tr He _ IH]; [reflexivity|].
  destruct e; simpl in *; try contradiction; exact IH.
Qed.

Lemma statuses_app (a b : list event) :
  statuses (a ++ b) = statuses a ++ statuses b.
Proof. apply flat_map_app. Qed.

Lemma yields_app (a b : list event) : yields (a ++ b) = yields a ++ yields b.
Proof. apply flat_map_app. Qed.

Lemma calls_app (a b : list event) : calls (a ++ b) = calls a ++ calls b.
Proof. apply flat_map_app. Qed.

Lemma cleanups_app (a b : list event) :
  cleanups (a ++ b) = cleanups a + cleanups b.
Proof. unfold cleanups. now rewrite filter_app, length_app. Qed.

End EventFacts.

(** ** The two paths, case by case *)

Section RunShapes.

Variable w : World.
Variable counter : nat.
Variable text : string.

Lemma try_except_on_error {A} (m : M A) :
  try_except m on_error
  = (fst m ++ closing (snd m),
     match snd m with Ok a => Ok a | Raise _ => Raise (HTTPException 500) end).
Proof.
  destruct m as [tr [a | e]]; simpl; [now rewrite app_nil_r | reflexivity].
Qed.

Lemma periodic_cleanup_cases (cfg : Config) (n : nat) :
  periodic_cleanup cfg n
  = if (MEMORY_CLEANUP_INTERVAL cfg =? 0)%Z then ([], Raise ZeroDivisionError)
    else if (Z.of_nat n mod MEMORY_CLEANUP_INTERVAL cfg =? 0)%Z
         then ([EvCleanup], Ok tt)
         else ([], Ok tt).
Proof.
  unfold periodic_cleanup, py_mod.
  destruct (MEMORY_CLEANUP_INTERVAL cfg =? 0)%Z; [reflexivity|].
  cbn. now destruct (Z.of_nat n mod MEMORY_CLEANUP_INTERVAL cfg =? 0)%Z.
Qed.

Lemma streaming_body_cases (model : Model) (cs : option nat)
    (ss sq : option string) :
  streaming_body w model text cs ss sq
  = match get_streaming_settings w cs ss sq with
    | Raise e => ([], Raise e)
    | Ok s =>
        match split_text_for_streaming w text
                (chunk_size s) (strategy s) (quality s) with
        | Raise e => ([EvStatus CHUNKING], Raise e)
        | Ok chunks =>
            let run :=
              stream_chunks model (fade_samples_of (sr model)) 0 None chunks in
            (EvStatus CHUNKING :: EvStatus GENERATING_AUDIO
               :: EvYield (Raw (firstn 44
                                  (Wav.save_zeros 1 (sr model) (sr model))))
               :: fst run
               ++ match snd run with
                  | Ok _ => [EvStatus COMPLETED]
                  | Raise _ => []
                  end,
             snd run)
        end
    end.
Proof.
  unfold streaming_body.
  destruct (get_streaming_settings w cs ss sq) as [s | e]; [|reflexivity].
  cbn -[Wav.save_zeros firstn stream_chunks fade_samples_of].
  destruct (split_text_for_streaming w text _ _ _) as [chunks | e];
    [|reflexivity].
  cbn -[Wav.save_zeros firstn stream_chunks fade_samples_of].
  destruct (stream_chunks model _ 0 None chunks) as [tr [[] | e]];
    cbn -[Wav.save_zeros firstn]; [reflexivity | now rewrite app_nil_r].
Qed.

Lemma streaming_no_model (cs : option nat) (ss sq : option string) :
  get_model w = None ->
  snd (generate_speech_streaming w counter text cs ss sq)
  = ([EvStatus INITIALIZING; EvStatus ERROR], Raise (HTTPException 500)).
Proof. intros H. unfold generate_speech_streaming. simpl. now rewrite H. Qed.

Lemma streaming_too_long (model : Model) (cs : option nat)
    (ss sq : option string) :
  get_model w = Some model ->
  MAX_TOTAL_LENGTH (config w) < String.length text ->
  snd (generate_speech_streaming w counter text cs ss sq)
  = (prologue w ++ [EvStatus ERROR], Raise (HTTPException 400)).
Proof.
  intros Hm Hlen. apply Nat.ltb_lt in Hlen.
  unfold generate_speech_streaming, prologue. simpl. rewrite Hm, Hlen.
  now destruct (ENABLE_MEMORY_MONITORING (config w)).
Qed.

Lemma streaming_accepted (model : Model) (cs : option nat)
    (ss sq : option string) :
  get_model w = Some model ->
  String.length text <= MAX_TOTAL_LENGTH (config w) ->
  snd (generate_speech_streaming w counter text cs ss sq)
  = let run :=
      try_finally
        (try_except (streaming_body w model text cs ss sq) on_error)
        (periodic_cleanup (config w) (counter + 1)) in
    (prologue w ++ fst run, snd run).
Proof.
  intros Hm Hlen. apply Nat.ltb_ge in Hlen.
  unfold generate_speech_streaming, prologue.
  cbn -[try_finally try_except streaming_body periodic_cleanup Nat.ltb].
  rewrite Hm, Hlen.
  fold (@on_error unit).
  destruct (try_finally _ _) as [tr r].
  now destruct (ENABLE_MEMORY_MONITORING (config w)).
Qed.

Lemma internal_body_cases (model : Model) :
  internal_body w model text
  = match split_text_into_chunks w text (MAX_CHUNK_LENGTH (config w)) with
    | Raise e => ([EvStatus CHUNKING], Raise e)
    | Ok chunks =>
        let run := generate_chunks model 0 chunks in
        let head := EvStatus CHUNKING :: EvStatus GENERATING_AUDIO :: fst run in
        match snd run with
        | Raise e => (head, Raise e)
        | Ok audio_chunks =>
            if 1 <? length audio_chunks then
              match concatenate_audio_chunks w audio_chunks (sr model) with
              | Raise e => (head ++ [EvStatus CONCATENATING], Raise e)
              | Ok final_audio =>
                  (head ++ [EvStatus CONCATENATING; EvStatus FINALIZING;
                            EvStatus COMPLETED],
                   Ok {| saved_audio := final_audio; saved_rate := sr model |})
              end
            else
              match audio_chunks with
              | [] => (head, Raise IndexError)
              | first :: _ =>
                  (head ++ [EvStatus FINALIZING; EvStatus COMPLETED],
                   Ok {| saved_audio := first; saved_rate := sr model |})
              end
        end
    end.
Proof.
  unfold internal_body.
  destruct (split_text_into_chunks w text _) as [chunks | e]; [|reflexivity].
  cbn -[generate_chunks Nat.ltb].
  destruct (generate_chunks model 0 chunks) as [tr [acs | e]];
    cbn -[Nat.ltb]; [|now rewrite ?app_nil_r].
  destruct (1 <? length acs).
  - destruct (concatenate_audio_chunks w acs (sr model)) as [fa | e];
      cbn; rewrite <- ?app_assoc; reflexivity.
  - destruct acs as [|first rest]; cbn; rewrite ?app_nil_r; reflexivity.
Qed.

Lemma internal_no_model :
  get_model w = None ->
  snd (generate_speech_internal w counter text)
  = ([EvStatus INITIALIZING; EvStatus ERROR], Raise (HTTPException 500)).
Proof. intros H. unfold generate_speech_internal. simpl. now rewrite H. Qed.

Lemma internal_too_long (model : Model) :
  get_model w = Some model ->
  MAX_TOTAL_LENGTH (config w) < String.length text ->
  snd (generate_speech_internal w counter text)
  = (prologue w ++ [EvStatus ERROR], Raise (HTTPException 400)).
Proof.
  intros Hm Hlen. apply Nat.ltb_lt in Hlen.
  unfold generate_speech_internal, prologue. simpl. rewrite Hm, Hlen.
  now destruct (ENABLE_MEMORY_MONITORING (config w)).
Qed.

Lemma internal_accepted (model : Model) :
  get_model w = Some model ->
  String.length text <= MAX_TOTAL_LENGTH (config w) ->
  snd (generate_speech_internal w counter text)
  = let run :=
      try_finally
        (try_except (internal_body w model text) on_error)
        (try_except (periodic_cleanup (config w) (counter + 1))
                    (fun _ => ret tt)) in
    (prologue w ++ fst run, snd run).
Proof.
  intros Hm Hlen. apply Nat.ltb_ge in Hlen.
  unfold generate_speech_internal, prologue.
  cbn -[try_finally try_except internal_body periodic_cleanup Nat.ltb].
  rewrite Hm, Hlen.
  fold (@on_error WavBuffer).
  destruct (try_finally _ _) as [tr r].
  now destruct (ENABLE_MEMORY_MONITORING (config w)).
Qed.

End RunShapes.

(** ** Traces of accepted requests *)

Section AcceptedRuns.

Lemma try_finally_trace {A} (m : M A) (f : M unit) :
  fst (try_finally m f) = fst m ++ fst f.
Proof. destruct m as [tr r], f as [tr' [[] | e]]; reflexivity. Qed.

Lemma try_finally_result {A} (m : M A) (f : M unit) :
  snd (try_finally m f)
  = match snd f with Ok _ => snd m | Raise e => Raise e end.
Proof. destruct m as [tr r], f as [tr' [[] | e]]; reflexivity. Qed.

Lemma streaming_accepted_trace (w : World) (counter : nat) (text : string)
    (model : Model) (cs : option nat) (ss sq : option string) :
  get_model w = Some model ->
  String.length text <= MAX_TOTAL_LENGTH (config w) ->
  fst (snd (generate_speech_streaming w counter text cs ss sq))
  = prologue w
    ++ fst (streaming_body w model text cs ss sq)
    ++ closing (snd (streaming_body w model text cs ss sq))
    ++ fst (periodic_cleanup (config w) (counter + 1)).
Proof.
  intros Hm Hlen.
  rewrite (streaming_accepted w counter text model cs ss sq Hm Hlen).
  cbv zeta. cbn [fst].
  rewrite try_finally_trace, try_except_on_error. cbn [fst].
  now rewrite <- app_assoc.
Qed.

Lemma internal_accepted_trace (w : World) (counter : nat) (text : string)
    (model : Model) :
  get_model w = Some model ->
  String.length text <= MAX_TOTAL_LENGTH (config w) ->
  fst (snd (generate_speech_internal w counter text))
  = prologue w
    ++ fst (internal_body w model text)
    ++ closing (snd (internal_body w model text))
    ++ fst (try_except (periodic_cleanup (config w) (counter + 1))
                       (fun _ => ret tt)).
Proof.
  intros Hm Hlen.
  rewrite (internal_accepted w counter text model Hm Hlen).
  cbv zeta. cbn [fst].
  rewrite try_finally_trace, try_except_on_error. cbn [fst].
  now rewrite <- app_assoc.
Qed.


Lemma yields_prologue (w : World) : yields (prologue w) = [].
Proof. unfold prologue. now destruct (ENABLE_MEMORY_MONITORING (config w)). Qed.

Lemma calls_prologue (w : World) : calls (prologue w) = [].
Proof. unfold prologue. now destruct (ENABLE_MEMORY_MONITORING (config w)). Qed.

Lemma cleanups_prologue (w : World) : cleanups (prologue w) = 0.
Proof. unfold prologue. now destruct (ENABLE_MEMORY_MONITORING (config w)). Qed.

Lemma closing_projections {A} (r : result A) :
  yields (closing r) = [] /\ calls (closing r) = []
  /\ cleanups (closing r) = 0.
Proof. now destruct r. Qed.

Lemma periodic_cleanup_projections (cfg : Config) (n : nat) :
  statuses (fst (periodic_cleanup cfg n)) = []
  /\ yields (fst (periodic_cleanup cfg n)) = []
  /\ calls (fst (periodic_cleanup cfg n)) = [].
Proof.
  rewrite periodic_cleanup_cases.
  destruct (MEMORY_CLEANUP_INTERVAL cfg =? 0)%Z; [now repeat split|].
  destruct (Z.of_nat n mod MEMORY_CLEANUP_INTERVAL cfg =? 0)%Z;
    now repeat split.
Qed.

End AcceptedRuns.

(** C5 (amended). A text longer than the configured maximum is rejected by
    both paths before any engine call and before any output byte: the last
    status recorded is [ERROR] and the exception is HTTP 400 when the model
    is loaded, HTTP 500 (model not loaded) otherwise. *)
Theorem over_length_text_is_rejected (w : World) (counter : nat)
    (text : string) (cs : option nat) (ss sq : option string) :
  MAX_TOTAL_LENGTH (config w) < String.length text ->
  let code := match get_model w with Some _ => 400 | None => 500 end in
  let streamed := snd (generate_speech_streaming w counter text cs ss sq) in
  let filed := snd (generate_speech_internal w counter text) in
  (calls (fst streamed) = [] /\ yields (fst streamed) = []
   /\ last (statuses (fst streamed)) INITIALIZING = ERROR
   /\ snd streamed = Raise (HTTPException code))
  /\ (calls (fst filed) = [] /\ yields (fst filed) = []
      /\ last (statuses (fst filed)) INITIALIZING = ERROR
      /\ snd filed = Raise (HTTPException code)).
Proof.
  intros Hlen. cbv zeta.
  destruct (get_model w) as [model|] eqn:Hm.
  - rewrite (streaming_too_long w counter text model cs ss sq Hm Hlen).
    rewrite (internal_too_long w counter text model Hm Hlen).
    cbn [fst snd].
    rewrite calls_app, yields_app, statuses_app, calls_prologue,
      yields_prologue.
    change (statuses [EvStatus ERROR]) with [ERROR].
    rewrite last_last. now repeat split.
  - rewrite (streaming_no_model w counter text cs ss sq Hm).
    rewrite (internal_no_model w counter text Hm).
    now repeat split.
Qed.

(** ** Engine failure in the streaming loop *)

Section EngineFailure.

Variable model : Model.
Variable n : nat.

Lemma calls_stream_pcm (prev : option ndarray) (np_pcm : ndarray) :
  calls (fst (stream_pcm prev np_pcm n)) = [].
Proof.
  unfold stream_pcm. destruct prev as [prev|]; [|reflexivity].
  now destruct (crossfade_pcm (Some prev) np_pcm n) as [[[c|] trimmed] | e].
Qed.

Lemma calls_periodic_gc (i : nat) : calls (fst (periodic_gc i)) = [].
Proof.
  unfold periodic_gc, when. now destruct ((0 <? i) && (i mod 3 =? 0)).
Qed.

Lemma stream_chunks_cons_inv (i : nat) (prev : option ndarray)
    (chunk : string) (rest : list string) (tr : list event) :
  stream_chunks model n i prev (chunk :: rest) = (tr, Ok tt) ->
  exists t ys tr',
    generate model chunk = Ok t
    /\ debug_min_max (orient t) = Ok tt
    /\ stream_pcm prev (orient t) n = (ys, Ok tt)
    /\ stream_chunks model n (S i) (Some (orient t)) rest = (tr', Ok tt)
    /\ tr = EvGenerate chunk :: ys ++ fst (periodic_gc i) ++ tr'.
Proof.
  intros H.
  destruct (generate model chunk) as [t | e] eqn:Hg.
  2:{ rewrite (stream_chunks_engine_raises _ _ _ _ _ _ _ Hg) in H.
      discriminate. }
  destruct (debug_min_max (orient t)) as [[] | e] eqn:Hd.
  2:{ cbn [stream_chunks] in H. rewrite Hg in H.
      cbn -[periodic_gc stream_chunks stream_pcm debug_min_max orient] in H.
      rewrite Hd in H. discriminate. }
  destruct (stream_pcm prev (orient t) n) as [ys [[] | e]] eqn:Hs.
  2:{ cbn [stream_chunks] in H. rewrite Hg in H.
      cbn -[periodic_gc stream_chunks stream_pcm debug_min_max orient] in H.
      rewrite Hd in H.
      cbn -[periodic_gc stream_chunks stream_pcm debug_min_max orient] in H.
      rewrite Hs in H. discriminate. }
  rewrite (stream_chunks_cons _ _ _ _ _ _ _ _ Hg Hd Hs) in H.
  destruct (stream_chunks model n (S i) (Some (orient t)) rest)
    as [tr' r] eqn:Hr.
  cbn [fst snd] in H. inversion H; subst.
  exists t, ys, tr'. now repeat split.
Qed.

(** A loop that completes has called the engine once per chunk, in order. *)
Lemma stream_chunks_ok_calls (chunks : list string) :
  forall i prev tr,
    stream_chunks model n i prev chunks = (tr, Ok tt) -> calls tr = chunks.
Proof.
  induction chunks as [|chunk rest IH]; intros i prev tr H.
  - inversion H. reflexivity.
  - apply stream_chunks_cons_inv in H.
    destruct H as [t [ys [tr' [Hg [Hd [Hs [Hr ->]]]]]]].
    cbn [calls flat_map app]. fold (calls (ys ++ fst (periodic_gc i) ++ tr')).
    rewrite !calls_app, calls_periodic_gc.
    replace (calls ys) with (@nil string)
      by (now rewrite <- (calls_stream_pcm prev (orient t)), Hs).
    cbn [app]. f_equal. exact (IH _ _ _ Hr).
Qed.

(** The loop stops at the first chunk the engine fails on. *)
Lemma stream_chunks_stops (pre : list string) (c : string)
    (post : list string) (e : exn) :
  generate model c = Raise e ->
  forall i prev tr_pre,
    stream_chunks model n i prev pre = (tr_pre, Ok tt) ->
    stream_chunks model n i prev (pre ++ c :: post)
    = (tr_pre ++ [EvGenerate c], Raise e).
Proof.
  intros Hc. induction pre as [|chunk rest IH]; intros i prev tr_pre H.
  - inversion H. now apply stream_chunks_engine_raises.
  - apply stream_chunks_cons_inv in H.
    destruct H as [t [ys [tr' [Hg [Hd [Hs [Hr ->]]]]]]].
    cbn [app].
    rewrite (stream_chunks_cons _ _ _ _ _ _ _ _ Hg Hd Hs).
    rewrite (IH _ _ _ Hr). cbn [fst snd].
    now rewrite <- !app_assoc.
Qed.

End EngineFailure.

(** C4. When the engine fails on segment [k] of a streaming request (the
    segments [pre] before it having been synthesized and streamed), the
    request fails: the last status recorded is [ERROR], the bytes emitted
    are the header and exactly what the segments before [k] produced, and
    the engine is called for those segments and for segment [k] only. *)
Theorem engine_failure_ends_request (w : World) (counter : nat)
    (text : string) (cs : option nat) (ss sq : option string)
    (model : Model) (s : StreamingSettings)
    (pre : list string) (c : string) (post : list string)
    (e : exn) (tr_pre : list event) :
  get_model w = Some model ->
  String.length text <= MAX_TOTAL_LENGTH (config w) ->
  get_streaming_settings w cs ss sq = Ok s ->
  split_text_for_streaming w text (chunk_size s) (strategy s) (quality s)
  = Ok (pre ++ c :: post) ->
  stream_chunks model (fade_samples_of (sr model)) 0 None pre
  = (tr_pre, Ok tt) ->
  generate model c = Raise e ->
  let run := snd (generate_speech_streaming w counter text cs ss sq) in
  (exists e', snd run = Raise e')
  /\ (MEMORY_CLEANUP_INTERVAL (config w) <> 0%Z ->
      snd run = Raise (HTTPException 500))
  /\ last (statuses (fst run)) INITIALIZING = ERROR
  /\ yields (fst run)
     = Raw (firstn 44 (Wav.save_zeros 1 (sr model) (sr model)))
         :: yields tr_pre
  /\ calls (fst run) = pre ++ [c].
Proof.
  intros Hm Hlen Hs Hsplit Hpre Hc. cbv zeta.
  pose proof (stream_chunks_stops model _ pre c post e Hc 0 None tr_pre Hpre)
    as Hloop.
  assert (Hbody :
    streaming_body w model text cs ss sq
    = (EvStatus CHUNKING :: EvStatus GENERATING_AUDIO
         :: EvYield (Raw (firstn 44 (Wav.save_zeros 1 (sr model) (sr model))))
         :: tr_pre ++ [EvGenerate c], Raise e)).
  { rewrite streaming_body_cases, Hs, Hsplit. cbv zeta.
    rewrite Hloop. cbn [fst snd]. now rewrite app_nil_r. }
  destruct (periodic_cleanup_projections (config w) (counter + 1))
    as [Hcs [Hcy Hcc]].
  repeat split.
  - rewrite (streaming_accepted w counter text model cs ss sq Hm Hlen).
    cbv zeta. cbn [snd]. rewrite try_finally_result, try_except_on_error.
    cbn [snd]. rewrite Hbody. cbn [snd].
    destruct (snd (periodic_cleanup _ _)); eauto.
  - intros HK.
    rewrite (streaming_accepted w counter text model cs ss sq Hm Hlen).
    cbv zeta. cbn [snd]. rewrite try_finally_result, try_except_on_error.
    cbn [snd]. rewrite Hbody. cbn [snd].
    rewrite periodic_cleanup_cases.
    apply Z.eqb_neq in HK. rewrite HK.
    now destruct (_ mod _ =? 0)%Z.
  - rewrite (streaming_accepted_trace w counter text model cs ss sq Hm Hlen).
    rewrite Hbody. cbn [fst snd closing].
    rewrite !app_assoc, statuses_app, Hcs, app_nil_r.
    rewrite statuses_app. change (statuses [EvStatus ERROR]) with [ERROR].
    apply last_last.
  - rewrite (streaming_accepted_trace w counter text model cs ss sq Hm Hlen).
    rewrite Hbody. cbn [fst snd closing].
    rewrite !yields_app, yields_prologue, Hcy.
    cbn -[Wav.save_zeros firstn]. rewrite yields_app. cbn.
    now rewrite !app_nil_r.
  - rewrite (streaming_accepted_trace w counter text model cs ss sq Hm Hlen).
    rewrite Hbody. cbn [fst snd closing].
    rewrite !calls_app, calls_prologue, Hcc.
    cbn -[Wav.save_zeros firstn]. rewrite calls_app. cbn.
    rewrite (stream_chunks_ok_calls model _ pre 0 None tr_pre Hpre).
    now rewrite !app_nil_r.
Qed.

(** ** The streamed header *)

Section HeaderFacts.

Local Open Scope Z_scope.

Lemma from_le_to_le (n : nat) :
  forall v, 0 <= v < 256 ^ Z.of_nat n -> Wav.from_le (Wav.to_le n v) = v.
Proof.
  induction n as [|n IH]; intros v Hv.
  - simpl in *. lia.
  - cbn [Wav.to_le Wav.from_le].
    rewrite IH.
    + pose proof (Z.div_mod v 256). lia.
    + rewrite Nat2Z.inj_succ, Z.pow_succ_r in Hv by lia.
      split; [apply Z.div_pos; lia | apply Z.div_lt_upper_bound; lia].
Qed.

Lemma length_wav_header (channels sample_rate frames : nat) :
  length (Wav.wav_header channels sample_rate frames) = 44%nat.
Proof. reflexivity. Qed.

Lemma firstn_all_app {A} (l r : list A) (n : nat) :
  length l = n -> firstn n (l ++ r) = l.
Proof.
  intros <-. rewrite firstn_app, Nat.sub_diag, firstn_all. simpl.
  apply app_nil_r.
Qed.

Lemma header_of_save_zeros (channels frames sample_rate : nat) :
  firstn 44 (Wav.save_zeros channels frames sample_rate)
  = Wav.wav_header channels sample_rate frames.
Proof. unfold Wav.save_zeros. now apply firstn_all_app. Qed.

Lemma wav_header_fields (channels sample_rate frames : nat) :
  let h := Wav.wav_header channels sample_rate frames in
  Wav.slice 4 8 h = Wav.to_le 4 (36 + 4 * Z.of_nat channels * Z.of_nat frames)
  /\ Wav.slice 20 22 h = Wav.to_le 2 3
  /\ Wav.slice 22 24 h = Wav.to_le 2 (Z.of_nat channels)
  /\ Wav.slice 24 28 h = Wav.to_le 4 (Z.of_nat sample_rate)
  /\ Wav.slice 34 36 h = Wav.to_le 2 32
  /\ Wav.slice 40 44 h = Wav.to_le 4 (4 * Z.of_nat channels * Z.of_nat frames).
Proof. cbv zeta. repeat split; reflexivity. Qed.

Lemma parse_streamed_header (sample_rate : nat) :
  Z.of_nat sample_rate < 2 ^ 32 ->
  Wav.parse_wav_header (Wav.wav_header 1 sample_rate sample_rate)
  = Ok (1, Z.of_nat sample_rate, 32, 3).
Proof.
  intros Hsr. unfold Wav.parse_wav_header.
  rewrite length_wav_header. cbn [Nat.ltb Nat.leb].
  destruct (wav_header_fields 1 sample_rate sample_rate)
    as [_ [Hfmt [Hch [Hrate [Hbits _]]]]].
  rewrite Hfmt, Hch, Hrate, Hbits.
  rewrite !from_le_to_le; [reflexivity | | | |];
    cbn; lia.
Qed.

End HeaderFacts.

(** C6. A streaming request that passes validation and splitting yields
    the 44 header bytes first and only float32 payloads after them.  Parsed
    with the standard WAV layout the header reports 1 channel, the model's
    sample rate, 32 bits per sample and format tag 3; its two size fields
    are those of the one-second silent placeholder, whatever is streamed. *)
Theorem streaming_starts_with_wav_header (w : World) (counter : nat)
    (text : string) (cs : option nat) (ss sq : option string)
    (model : Model) (s : StreamingSettings) (chunks : list string) :
  get_model w = Some model ->
  String.length text <= MAX_TOTAL_LENGTH (config w) ->
  get_streaming_settings w cs ss sq = Ok s ->
  split_text_for_streaming w text (chunk_size s) (strategy s) (quality s)
  = Ok chunks ->
  (36 + 4 * Z.of_nat (sr model) < 2 ^ 32)%Z ->
  exists (h : list Z) (payloads : list (list Q)),
    yields (fst (snd (generate_speech_streaming w counter text cs ss sq)))
    = Raw h :: map Float32 payloads
    /\ length h = 44
    /\ Wav.parse_wav_header h = Ok (1, Z.of_nat (sr model), 32, 3)%Z
    /\ Wav.from_le (Wav.slice 4 8 h) = (36 + 4 * Z.of_nat (sr model))%Z
    /\ Wav.from_le (Wav.slice 40 44 h) = (4 * Z.of_nat (sr model))%Z.
Proof.
  intros Hm Hlen Hs Hsplit Hsr.
  pose proof (loop_event_chunks model (fade_samples_of (sr model)) chunks
                0 None) as Hev.
  destruct (loop_event_yields _ Hev) as [payloads Hy].
  exists (Wav.wav_header 1 (sr model) (sr model)), payloads.
  destruct (periodic_cleanup_projections (config w) (counter + 1))
    as [_ [Hcy _]].
  destruct (wav_header_fields 1 (sr model) (sr model))
    as [Hriff [_ [_ [_ [_ Hdata]]]]].
  split; [|split; [apply length_wav_header|split; [|split]]].
  - rewrite (streaming_accepted_trace w counter text model cs ss sq Hm Hlen).
    rewrite streaming_body_cases, Hs, Hsplit. cbv zeta. cbn [fst snd].
    rewrite header_of_save_zeros.
    rewrite !yields_app, yields_prologue, Hcy.
    destruct (closing_projections
                (snd (stream_chunks model (fade_samples_of (sr model)) 0 None
                        chunks))) as [Hcl _].
    rewrite Hcl.
    change (yields (?a :: ?b :: EvYield ?x :: ?l)) with (x :: yields l).
    rewrite yields_app, Hy.
    destruct (snd (stream_chunks _ _ _ _ _)); cbn;
      now rewrite !app_nil_r.
  - apply parse_streamed_header. lia.
  - rewrite Hriff, from_le_to_le;
      change (Z.of_nat 1) with 1%Z; change (Z.of_nat 4) with 4%Z; lia.
  - rewrite Hdata, from_le_to_le;
      change (Z.of_nat 1) with 1%Z; change (Z.of_nat 4) with 4%Z; lia.
Qed.

(** ** The recorded statuses *)

Section LifecycleFacts.






End LifecycleFacts.


(** ** Bulk cleanup *)

Section CleanupFacts.

Lemma cleanups_streaming_body (w : World) (text : string) (model : Model)
    (cs : option nat) (ss sq : option string) :
  cleanups (fst (streaming_body w model text cs ss sq)
            ++ closing (snd (streaming_body w model text cs ss sq))) = 0.
Proof.
  rewrite streaming_body_cases.
  destruct (get_streaming_settings w cs ss sq) as [s | e]; [|reflexivity].
  destruct (split_text_for_streaming w text _ _ _) as [chunks | e];
    [|reflexivity].
  cbv zeta. cbn [fst snd].
  pose proof (loop_event_cleanups _
    (loop_event_chunks model (fade_samples_of (sr model)) chunks 0 None))
    as Hcl.
  change (cleanups ((?a :: ?b :: EvYield ?x :: ?l) ++ ?c))
    with (cleanups (l ++ c)).
  rewrite !cleanups_app, Hcl.
  now destruct (snd (stream_chunks _ _ _ _ _)).
Qed.

Lemma cleanups_internal_body (w : World) (text : string) (model : Model) :
  cleanups (fst (internal_body w model text)
            ++ closing (snd (internal_body w model text))) = 0.
Proof.
  rewrite internal_body_cases.
  destruct (split_text_into_chunks w text _) as [chunks | e]; [|reflexivity].
  cbv zeta.
  pose proof (gen_event_cleanups _ (gen_event_chunks model chunks 0)) as Hcl.
  destruct (snd (generate_chunks model 0 chunks)) as [acs | e].
  - destruct (1 <? length acs).
    + destruct (concatenate_audio_chunks w acs (sr model)) as [fa | e];
        cbn [fst snd]; rewrite !cleanups_app;
        change (cleanups (EvStatus CHUNKING :: EvStatus GENERATING_AUDIO :: ?l))
          with (cleanups l);
        now rewrite Hcl.
    + destruct acs as [|first rest]; cbn [fst snd];
        rewrite !cleanups_app;
        change (cleanups (EvStatus CHUNKING :: EvStatus GENERATING_AUDIO :: ?l))
          with (cleanups l);
        now rewrite Hcl.
  - cbn [fst snd]. rewrite cleanups_app.
    change (cleanups (EvStatus CHUNKING :: EvStatus GENERATING_AUDIO :: ?l))
      with (cleanups l).
    now rewrite Hcl.
Qed.

Lemma accepted_true (w : World) (text : string) :
  accepted w text = true ->
  exists model, get_model w = Some model
                /\ String.length text <= MAX_TOTAL_LENGTH (config w).
Proof.
  unfold accepted. destruct (get_model w) as [model|]; [|discriminate].
  intros H. exists model. split; [reflexivity | now apply Nat.leb_le].
Qed.

Lemma accepted_false (w : World) (text : string) :
  accepted w text = false ->
  get_model w = None
  \/ exists model, get_model w = Some model
                   /\ MAX_TOTAL_LENGTH (config w) < String.length text.
Proof.
  unfold accepted. destruct (get_model w) as [model|]; [|now left].
  intros H. right. exists model. split; [reflexivity | now apply Nat.leb_gt].
Qed.

End CleanupFacts.

(** C8 (amended). With a non-zero interval [K], [cleanup_memory] runs at
    most once per request and only as its last event, never inside the
    segment loop; it runs exactly when the request reached the [try] block
    (model loaded, text within the length limit) and the request counter,
    which also counts rejected requests, is a multiple of [K]. *)
Theorem cleanup_runs_last_on_accepted_requests (w : World) (counter : nat)
    (text : string) (cs : option nat) (ss sq : option string) :
  MEMORY_CLEANUP_INTERVAL (config w) <> 0%Z ->
  let n := counter + 1 in
  let due :=
    accepted w text
    && (Z.of_nat n mod MEMORY_CLEANUP_INTERVAL (config w) =? 0)%Z in
  let streamed := generate_speech_streaming w counter text cs ss sq in
  let filed := generate_speech_internal w counter text in
  fst streamed = n /\ fst filed = n
  /\ (exists tr, cleanups tr = 0
        /\ fst (snd streamed) = tr ++ (if due then [EvCleanup] else []))
  /\ (exists tr, cleanups tr = 0
        /\ fst (snd filed) = tr ++ (if due then [EvCleanup] else [])).
Proof.
  intros HK. cbv zeta. apply Z.eqb_neq in HK.
  split; [reflexivity | split; [reflexivity|]].
  destruct (accepted w text) eqn:Hacc.
  - destruct (accepted_true w text Hacc) as [model [Hm Hlen]].
    cbn [andb]. split.
    + exists (prologue w
              ++ fst (streaming_body w model text cs ss sq)
              ++ closing (snd (streaming_body w model text cs ss sq))).
      split.
      * now rewrite cleanups_app, cleanups_prologue, cleanups_streaming_body.
      * rewrite (streaming_accepted_trace w counter text model cs ss sq
                   Hm Hlen).
        rewrite periodic_cleanup_cases, HK, <- !app_assoc.
        now destruct (_ mod _ =? 0)%Z.
    + exists (prologue w
              ++ fst (internal_body w model text)
              ++ closing (snd (internal_body w model text))).
      split.
      * now rewrite cleanups_app, cleanups_prologue, cleanups_internal_body.
      * rewrite (internal_accepted_trace w counter text model Hm Hlen).
        rewrite periodic_cleanup_cases, HK, <- !app_assoc.
        now destruct (_ mod _ =? 0)%Z.
  - cbn [andb].
    destruct (accepted_false w text Hacc) as [Hm | [model [Hm Hlen]]].
    + rewrite (streaming_no_model w counter text cs ss sq Hm).
      rewrite (internal_no_model w counter text Hm).
      split; eexists; (split; [|symmetry; apply app_nil_r]); reflexivity.
    + rewrite (streaming_too_long w counter text model cs ss sq Hm Hlen).
      rewrite (internal_too_long w counter text model Hm Hlen).
      split; eexists; (split; [|symmetry; apply app_nil_r]); cbn [fst];
        now rewrite cleanups_app, cleanups_prologue.
Qed.

(** ** Tails that are never held back, tails that are never flushed *)

Section TailFacts.

Lemma map_nth_seq (row : list Q) :
  map (fun t => nth t row 0%Q) (seq 0 (length row)) = row.
Proof.
  induction row as [|x row IH]; [reflexivity|].
  cbn [length seq map nth]. f_equal.
  rewrite <- seq_shift, map_map. exact IH.
Qed.

Lemma transpose_row (row : list Q) :
  transpose [row] = map (fun x => [x]) row.
Proof.
  unfold transpose. cbn [shape1 map].
  rewrite <- (map_nth_seq row) at 2. now rewrite map_map.
Qed.

Lemma ravel_columns (row : list Q) : ravel (map (fun x => [x]) row) = row.
Proof.
  unfold ravel. induction row as [|x row IH]; [reflexivity|].
  cbn. now rewrite IH.
Qed.

(** A buffer of one channel and more than one sample is transposed by the
    orientation test, and is then one sample long for the crossfade logic:
    with a crossfade of at least one sample it is streamed whole, and with
    at least two it is never blended with its successor. *)
Lemma mono_buffer_bypasses_crossfade (row : list Q) (n : nat) :
  1 < length row -> 1 <= n ->
  shape1 (orient [row]) = 1
  /\ stream_pcm None (orient [row]) n
     = ([EvYield (Float32 (map (clip1 (-1) 1) row))], Ok tt)
  /\ (2 <= n -> forall next,
        crossfade_pcm (Some (orient [row])) next n = Ok (None, next)).
Proof.
  intros Hlen Hn.
  assert (Hor : orient [row] = map (fun x => [x]) row).
  { unfold orient. cbn [shape0 shape1 length].
    apply Nat.ltb_lt in Hlen. rewrite Hlen. apply transpose_row. }
  assert (Hs1 : shape1 (orient [row]) = 1).
  { rewrite Hor. destruct row; simpl in *; [lia | reflexivity]. }
  split; [exact Hs1 | split].
  - rewrite stream_pcm_first, chunk_to_stream_short by lia.
    now rewrite pcm_bytes_samples, Hor, ravel_columns.
  - intros H2 next. apply crossfade_pcm_short. left. lia.
Qed.


End TailFacts.

(** ** Examples and the remaining claims *)

(** C1. The pipeline at two concrete requests of two buffers each.
    With the mono engine (buffers of shape [(1, 3)], two samples of
    crossfade) the orientation test transposes each buffer, so the first
    buffer is emitted whole at once - its final two samples are not held
    back - and nothing is blended.  With the three-channel engine (one
    sample of crossfade) the first tail is held back and blended, but the
    last buffer is emitted without its final sample of every channel
    ([-3/16], [-6/16], [-9/16]), which is never flushed. *)
Theorem streaming_tail_handling_at_two_buffers :
  pcm_payloads
    (fst (snd (generate_speech_streaming mono_world 0 "one two"
                 None None None)))
  = [[1 # 8; 1 # 4; 3 # 8]; [1 # 2; 5 # 8; 3 # 4]]%Q
  /\ pcm_payloads
       (fst (snd (generate_speech_streaming square_world 0 "one two"
                    None None None)))
     = [[1 # 16; 1 # 8; 1 # 4; 5 # 16; 7 # 16; 1 # 2];
        [3 # 16; 3 # 8; 9 # 16];
        [-1 # 8; -5 # 16; -1 # 2]]%Q
  /\ snd (snd (generate_speech_streaming square_world 0 "one two"
                 None None None)) = Ok tt.
Proof. repeat split; vm_compute; reflexivity. Qed.

Lemma first_buffer_of_exactly_N_is_replayed_witness :
  exists blended : ndarray,
    stream_chunks {| sr := 100; generate := unit_engine |} 1 0 None
      ["one"; "two"]%string
    = ([EvGenerate "one"; EvYield (pcm_bytes [[1 # 2]]%Q);
        EvGenerate "two"; EvYield (pcm_bytes blended);
        EvYield (pcm_bytes (chunk_to_stream 1 (cols_from 1 [[1 # 4]]%Q)))],
       Ok tt).
Proof.
  destruct (first_buffer_of_exactly_N_is_replayed
              {| sr := 100; generate := unit_engine |}
              "one" "two" [[1 # 2]]%Q [[1 # 4]]%Q 1)
    as [_ [_ [blended [H _]]]];
    [ lia | reflexivity | reflexivity | reflexivity | reflexivity
    | simpl; lia | ].
  exists blended. exact H.
Defined.

Lemma engine_failure_ends_request_witness :
  let run := snd (generate_speech_streaming failing_world 0 "one oops two"
                    None None None) in
  last (statuses (fst run)) INITIALIZING = ERROR
  /\ calls (fst run) = ["one"; "oops"]%string
  /\ snd run = Raise (HTTPException 500).
Proof.
  destruct (engine_failure_ends_request failing_world 0 "one oops two"
              None None None
              {| sr := 200; generate := mono_engine |} demo_settings
              ["one"]%string "oops"%string ["two"]%string EngineError
              [EvGenerate "one"; EvYield (Float32 [1 # 8; 2 # 8; 3 # 8]%Q)])
    as [_ [H500 [Hlast [_ Hcalls]]]];
    [ reflexivity | vm_compute; lia | reflexivity | reflexivity
    | reflexivity | reflexivity | ].
  cbv zeta. split; [exact Hlast | split; [exact Hcalls|]].
  apply H500. discriminate.
Defined.

(** C5, as stated, fails when no model is loaded: an over-length text is
    then rejected with HTTP 500, by either path. *)
Lemma over_length_text_without_model :
  MAX_TOTAL_LENGTH (config cold_world) < String.length "hello"
  /\ snd (snd (generate_speech_streaming cold_world 0 "hello" None None None))
     <> Raise (HTTPException 400)
  /\ snd (snd (generate_speech_internal cold_world 0 "hello"))
     <> Raise (HTTPException 400).
Proof. split; [vm_compute; lia | split; discriminate]. Qed.

Lemma over_length_text_is_rejected_witness :
  let streamed :=
    snd (generate_speech_streaming strict_world 0 "hello" None None None) in
  calls (fst streamed) = [] /\ yields (fst streamed) = []
  /\ snd streamed = Raise (HTTPException 400).
Proof.
  destruct (over_length_text_is_rejected strict_world 0 "hello"
              None None None)
    as [[Hc [Hy [_ Hr]]] _]; [vm_compute; lia|].
  cbv zeta. split; [exact Hc | split; [exact Hy | exact Hr]].
Defined.

Lemma streaming_starts_with_wav_header_witness :
  exists (h : list Z) (payloads : list (list Q)),
    yields (fst (snd (generate_speech_streaming mono_world 0 "one two"
                        None None None)))
    = Raw h :: map Float32 payloads
    /\ length h = 44
    /\ Wav.parse_wav_header h = Ok (1, 200, 32, 3)%Z.
Proof.
  destruct (streaming_starts_with_wav_header mono_world 0 "one two"
              None None None
              {| sr := 200; generate := mono_engine |} demo_settings
              ["one"; "two"]%string)
    as [h [payloads [Hy [Hl [Hp _]]]]];
    [ reflexivity | vm_compute; lia | reflexivity | reflexivity
    | vm_compute; reflexivity | ].
  exists h, payloads. split; [exact Hy | split; [exact Hl | exact Hp]].
Defined.


(** C8, as stated, fails on a rejected request: the second request, with
    cleanup due every second request, is rejected for its length and
    [cleanup_memory] does not run, on either path. *)
Lemma rejected_request_skips_cleanup :
  fst (generate_speech_streaming strict_world 1 "hello" None None None) = 2
  /\ (Z.of_nat 2 mod MEMORY_CLEANUP_INTERVAL (config strict_world) = 0)%Z
  /\ cleanups (fst (snd (generate_speech_streaming strict_world 1 "hello"
                           None None None))) = 0
  /\ cleanups (fst (snd (generate_speech_internal strict_world 1 "hello")))
     = 0.
Proof. repeat split; vm_compute; reflexivity. Qed.

Lemma cleanup_runs_last_on_accepted_requests_witness :
  exists tr, cleanups tr = 0
    /\ fst (snd (generate_speech_streaming strict_world 1 "hey"
                   None None None))
       = tr ++ [EvCleanup].
Proof.
  destruct (cleanup_runs_last_on_accepted_requests strict_world 1 "hey"
              None None None)
    as [_ [_ [[tr [H0 Htr]] _]]]; [discriminate|].
  exists tr. split; [exact H0 | exact Htr].
Defined.

(** ** Uploaded voice files *)

Section UploadFacts.

Import Upload.

Lemma supported_In (file_ext : string) :
  supported file_ext = true <-> In file_ext SUPPORTED_AUDIO_FORMATS.
Proof.
  unfold supported. rewrite existsb_exists. split.
  - intros [x [Hin Heq]]. apply String.eqb_eq in Heq. now subst.
  - intros Hin. exists file_ext. split; [exact Hin | apply String.eqb_refl].
Qed.

Lemma too_large_iff (file : UploadFile) :
  too_large file = true
  <-> exists n, size file = Some n /\ (max_size < n)%Z.
Proof.
  unfold too_large. destruct (size file) as [n|].
  - rewrite andb_true_iff, negb_true_iff, Z.eqb_neq, Z.ltb_lt. split.
    + intros [_ H]. now exists n.
    + intros [m [Hm H]]. inversion Hm; subst. split; [|exact H].
      unfold max_size in H. lia.
  - split; [discriminate | intros [n [H _]]; discriminate].
Qed.

Lemma lower_ascii_idempotent (c : ascii) :
  lower_ascii (lower_ascii c) = lower_ascii c.
Proof.
  destruct c as [[] [] [] [] [] [] [] []]; vm_compute; reflexivity.
Qed.

Lemma lower_idempotent (s : string) : lower (lower s) = lower s.
Proof.
  induction s as [|c s IH]; [reflexivity|].
  simpl. now rewrite lower_ascii_idempotent, IH.
Qed.

Lemma lower_empty (s : string) :
  String.eqb (lower s) EmptyString = String.eqb s EmptyString.
Proof. now destruct s. Qed.

End UploadFacts.

(** C10. [validate_audio_file] raises HTTP 400 exactly when the filename is
    missing (absent or empty), the extension of the lower-cased filename is
    not one of .mp3, .wav, .flac, .m4a, .ogg, or the reported size exceeds
    [25 * 1024 * 1024]; otherwise it returns normally.  The verdict does
    not depend on the case of the filename. *)
Theorem validate_audio_file_rejects_exactly (file : Upload.UploadFile) :
  (Upload.validate_audio_file file = Raise (HTTPException 400)
   <-> (Upload.filename file = None
        \/ Upload.filename file = Some EmptyString
        \/ (exists name, Upload.filename file = Some name
              /\ ~ In (snd (Upload.splitext (Upload.lower name)))
                      [".mp3"; ".wav"; ".flac"; ".m4a"; ".ogg"]%string)
        \/ (exists n, Upload.size file = Some n
              /\ (25 * 1024 * 1024 < n)%Z)))
  /\ (Upload.validate_audio_file file <> Raise (HTTPException 400) ->
      Upload.validate_audio_file file = Ok tt)
  /\ (forall name,
        Upload.validate_audio_file
          {| Upload.filename := Some name; Upload.size := Upload.size file |}
        = Upload.validate_audio_file
            {| Upload.filename := Some (Upload.lower name);
               Upload.size := Upload.size file |}).
Proof.
  split; [|split].
  - unfold Upload.validate_audio_file.
    destruct (Upload.filename file) as [name|] eqn:Hname.
    2:{ split; [now left | reflexivity]. }
    destruct (String.eqb name EmptyString) eqn:Hempty.
    { apply String.eqb_eq in Hempty. subst.
      split; [now right; left | reflexivity]. }
    apply String.eqb_neq in Hempty.
    destruct (Upload.supported (snd (Upload.splitext (Upload.lower name))))
      eqn:Hsup; cbn [negb].
    + apply supported_In in Hsup.
      destruct (Upload.too_large file) eqn:Hbig.
      * apply too_large_iff in Hbig.
        split; [intros _; now right; right; right | reflexivity].
      * split; [discriminate|].
        intros [H | [H | [[nm [H Hn]] | H]]]; try discriminate.
        -- inversion H. congruence.
        -- inversion H; subst. contradiction.
        -- apply too_large_iff in H. congruence.
    + split; [|reflexivity]. intros _. right; right; left.
      exists name. split; [reflexivity|].
      intros Hin. apply supported_In in Hin. congruence.
  - unfold Upload.validate_audio_file.
    destruct (Upload.filename file) as [name|]; [|congruence].
    destruct (String.eqb name EmptyString); [congruence|].
    destruct (negb _); [congruence|].
    destruct (Upload.too_large file); congruence.
  - intros name. unfold Upload.validate_audio_file. cbn.
    now rewrite lower_empty, lower_idempotent.
Qed.

(** * Further properties of the code *)

(** ** The crossfade ramps *)

Section RampFacts.

Lemma Qnat_nonneg (n : nat) : (0 <= Qnat n)%Q.
Proof. unfold Qnat, Qle. simpl. lia. Qed.

Lemma Qnat_lt (t n : nat) : t < n -> (Qnat t < Qnat n)%Q.
Proof. intros H. unfold Qnat, Qlt. simpl. lia. Qed.

Lemma ramp_fraction (t n : nat) :
  t < n -> (0 <= Qnat t / Qnat n)%Q /\ (Qnat t / Qnat n < 1)%Q.
Proof.
  intros Ht.
  assert (Hn : (0 < Qnat n)%Q).
  { apply Qle_lt_trans with (Qnat t);
      [apply Qnat_nonneg | now apply Qnat_lt]. }
  split.
  - apply Qle_shift_div_l; [exact Hn|]. rewrite Qmult_0_l. apply Qnat_nonneg.
  - apply Qlt_shift_div_r; [exact Hn|]. rewrite Qmult_1_l. now apply Qnat_lt.
Qed.

Lemma convex_in_range (p q a : Q) :
  in_unit_range p -> in_unit_range q -> (0 <= a)%Q -> (a <= 1)%Q ->
  in_unit_range (p * (1 - a) + q * a).
Proof. unfold in_unit_range. intros [? ?] [? ?] ? ?. split; nra. Qed.

Lemma at2_in_range (a : ndarray) :
  Forall (Forall in_unit_range) a -> forall c t, in_unit_range (at2 a c t).
Proof.
  intros Ha c t. unfold at2.
  assert (Hz : in_unit_range 0) by (split; discriminate).
  destruct (Nat.lt_ge_cases c (length a)) as [Hc | Hc].
  - assert (Hrow : Forall in_unit_range (nth c a [])).
    { rewrite Forall_forall in Ha. apply Ha, nth_In, Hc. }
    destruct (Nat.lt_ge_cases t (length (nth c a []))) as [Ht | Ht].
    + rewrite Forall_forall in Hrow. apply Hrow, nth_In, Ht.
    + now rewrite nth_overflow.
  - rewrite (nth_overflow a) by exact Hc. now destruct t.
Qed.

Lemma in_range_of_at2 (a : ndarray) (n : nat) :
  Forall (fun r => length r = n) a ->
  (forall c t, c < shape0 a -> t < n -> in_unit_range (at2 a c t)) ->
  Forall (Forall in_unit_range) a.
Proof.
  intros Hlen Hat. apply Forall_forall. intros r Hr.
  apply Forall_forall. intros x Hx.
  destruct (In_nth a r [] Hr) as [c [Hc <-]].
  destruct (In_nth _ x 0%Q Hx) as [t [Ht <-]].
  apply Hat; [exact Hc|].
  rewrite Forall_forall in Hlen.
  now rewrite <- (Hlen (nth c a []) (nth_In a [] Hc)).
Qed.

Lemma in_unit_range_proper (x y : Q) :
  (x == y)%Q -> in_unit_range y -> in_unit_range x.
Proof. unfold in_unit_range. intros H [? ?]. now rewrite H. Qed.

End RampFacts.

(** X1. The two ramps of a crossfade are complementary weights: they sum to
    one, the fade-in weight lies in [0, 1) and the fade-out weight in
    (0, 1]; a crossfade therefore starts on the previous buffer alone, the
    first sample of the next buffer having weight zero in the blend. *)
Theorem crossfade_ramps_are_complementary (prev next : ndarray) (N : nat) :
  0 < N -> shape0 prev = shape0 next ->
  N <= shape1 prev -> N <= shape1 next ->
  (forall t, t < N ->
     let fade_out := nth t (linspace 1 0 N) 0%Q in
     let fade_in := nth t (linspace 0 1 N) 0%Q in
     (fade_out + fade_in == 1)%Q
     /\ (0 <= fade_in)%Q /\ (fade_in < 1)%Q
     /\ (0 < fade_out)%Q /\ (fade_out <= 1)%Q)
  /\ exists blended,
       crossfade_pcm (Some prev) next N = Ok (Some blended, cols_from N next)
       /\ forall c, c < shape0 next ->
            (at2 blended c 0 == at2 prev c (shape1 prev - N))%Q.
Proof.
  intros HN Hch Hp Hx. split.
  - intros t Ht. cbv zeta.
    rewrite fade_out_weight, fade_in_weight by exact Ht.
    destruct (ramp_fraction t N Ht) as [H0 H1].
    repeat split; lra.
  - exists (blended_region prev next N). split.
    + now apply crossfade_pcm_blends.
    + intros c Hc.
      rewrite blended_region_at by (try assumption; lia).
      rewrite Nat.add_0_r.
      change (Qnat 0) with 0%Q.
      assert (Hz : (0 / Qnat N == 0)%Q) by (unfold Qdiv; apply Qmult_0_l).
      rewrite Hz. ring.
Qed.

Lemma crossfade_ramps_are_complementary_witness :
  exists blended,
    crossfade_pcm (Some [[0; 1 # 2; -1 # 2]%Q]) [[1 # 4; 1; 3 # 4; 0]%Q] 2
    = Ok (Some blended, cols_from 2 [[1 # 4; 1; 3 # 4; 0]%Q])
    /\ forall c, c < 1 -> (at2 blended c 0 == 1 # 2)%Q.
Proof.
  destruct (crossfade_ramps_are_complementary
              [[0; 1 # 2; -1 # 2]%Q] [[1 # 4; 1; 3 # 4; 0]%Q] 2)
    as [_ [blended [H1 H2]]];
    [ lia | reflexivity | simpl; lia | simpl; lia | ].
  exists blended. split; [exact H1|].
  intros c Hc. rewrite (H2 c Hc).
  assert (c = 0) by lia. subst. reflexivity.
Defined.

(** X2. Crossfading two buffers whose samples all lie in [-1, 1] gives a
    blended region whose samples all lie in [-1, 1]: the blend is a convex
    combination, so the clamp applied before emission leaves its values
    unchanged. *)
Theorem crossfade_stays_in_range (prev next : ndarray) (N : nat) :
  0 < N -> shape0 prev = shape0 next ->
  N <= shape1 prev -> N <= shape1 next ->
  Forall (Forall in_unit_range) prev ->
  Forall (Forall in_unit_range) next ->
  exists blended,
    crossfade_pcm (Some prev) next N = Ok (Some blended, cols_from N next)
    /\ Forall (Forall in_unit_range) blended
    /\ Forall (Forall (fun x => (clip1 (-1) 1 x == x)%Q)) blended.
Proof.
  intros HN Hch Hp Hx Hprev Hnext.
  exists (blended_region prev next N).
  destruct (blended_region_shape prev next N) as [Hs0 Hs1].
  assert (Hin : Forall (Forall in_unit_range) (blended_region prev next N)).
  { apply (in_range_of_at2 _ N Hs1). intros c t Hc Ht.
    rewrite Hs0 in Hc.
    eapply in_unit_range_proper;
      [apply blended_region_at; assumption|].
    destruct (ramp_fraction t N Ht) as [H0 H1].
    apply convex_in_range;
      [now apply at2_in_range | now apply at2_in_range | exact H0 | lra]. }
  split; [now apply crossfade_pcm_blends | split; [exact Hin|]].
  eapply Forall_impl; [|exact Hin].
  intros r Hr. eapply Forall_impl; [|exact Hr].
  intros x Hxr. now apply clip1_inside.
Qed.

Lemma crossfade_stays_in_range_witness :
  exists blended,
    crossfade_pcm (Some [[0; 1 # 2; -1 # 2]%Q]) [[1 # 4; 1; 3 # 4; 0]%Q] 2
    = Ok (Some blended, cols_from 2 [[1 # 4; 1; 3 # 4; 0]%Q])
    /\ Forall (Forall in_unit_range) blended.
Proof.
  destruct (crossfade_stays_in_range
              [[0; 1 # 2; -1 # 2]%Q] [[1 # 4; 1; 3 # 4; 0]%Q] 2)
    as [blended [H1 [H2 _]]];
    [ lia | reflexivity | simpl; lia | simpl; lia | | | ].
  - repeat constructor; discriminate.
  - repeat constructor; discriminate.
  - exists blended. split; [exact H1 | exact H2].
Defined.

(** ** What the stream can contain *)

Section ClampFacts.

Lemma Forall_try_except {A} (P : event -> Prop) (m : M A)
    (h : exn -> M A) :
  Forall P (fst m) -> (forall e, Forall P (fst (h e))) ->
  Forall P (fst (try_except m h)).
Proof.
  intros Hm Hh. destruct m as [tr [a | e]]; [exact Hm|].
  simpl. specialize (Hh e). destruct (h e) as [tr' r]. simpl in *.
  apply Forall_app. now split.
Qed.

Lemma Forall_try_finally {A} (P : event -> Prop) (m : M A) (f : M unit) :
  Forall P (fst m) -> Forall P (fst f) -> Forall P (fst (try_finally m f)).
Proof.
  intros Hm Hf. rewrite try_finally_trace. apply Forall_app. now split.
Qed.

Lemma clamped_pcm_bytes (a : ndarray) : clamped_event (EvYield (pcm_bytes a)).
Proof.
  rewrite pcm_bytes_samples. simpl. apply Forall_forall.
  intros x Hx. apply in_map_iff in Hx. destruct Hx as [y [<- _]].
  apply clip1_bounds.
Qed.

Lemma clamped_stream_pcm (prev : option ndarray) (np_pcm : ndarray)
    (n : nat) :
  Forall clamped_event (fst (stream_pcm prev np_pcm n)).
Proof.
  unfold stream_pcm. destruct prev as [prev|].
  - apply Forall_bind; [apply Forall_lift|].
    intros [[c|] trimmed].
    + apply Forall_bind; intros; apply Forall_emit; apply clamped_pcm_bytes.
    + apply Forall_bind;
        [constructor | intros; apply Forall_emit; apply clamped_pcm_bytes].
  - apply Forall_emit, clamped_pcm_bytes.
Qed.

Lemma clamped_stream_chunks (model : Model) (n : nat)
    (chunks : list string) :
  forall i prev,
    Forall clamped_event (fst (stream_chunks model n i prev chunks)).
Proof.
  induction chunks as [|chunk rest IH]; intros i prev.
  - constructor.
  - cbn [stream_chunks].
    apply Forall_bind; [apply Forall_emit; exact I | intros _].
    apply Forall_bind; [apply Forall_lift | intros t].
    apply Forall_bind; [apply Forall_lift | intros _].
    apply Forall_bind; [apply clamped_stream_pcm | intros _].
    apply Forall_bind; [apply Forall_when, Forall_emit; exact I | intros _].
    apply IH.
Qed.

Lemma clamped_periodic_cleanup (cfg : Config) (n : nat) :
  Forall clamped_event (fst (periodic_cleanup cfg n)).
Proof.
  unfold periodic_cleanup.
  apply Forall_bind; [apply Forall_lift | intros r].
  apply Forall_when, Forall_emit. exact I.
Qed.

Lemma clamped_streaming_body (w : World) (model : Model) (text : string)
    (cs : option nat) (ss sq : option string) :
  Forall clamped_event (fst (streaming_body w model text cs ss sq)).
Proof.
  unfold streaming_body.
  apply Forall_bind; [apply Forall_lift | intros s].
  apply Forall_bind; [apply Forall_emit; exact I | intros _].
  apply Forall_bind; [apply Forall_lift | intros chunks].
  apply Forall_bind; [apply Forall_emit; exact I | intros _].
  apply Forall_bind; [apply Forall_emit; exact I | intros _].
  apply Forall_bind; [apply clamped_stream_chunks | intros _].
  apply Forall_emit. exact I.
Qed.

Lemma clamped_yields (tr : list event) :
  Forall clamped_event tr -> Forall clamped_bytes (yields tr).
Proof.
  induction 1 as [|e tr He _ IH]; [constructor|].
  destruct e as [s|c|b| |]; simpl; try exact IH.
  constructor; [|exact IH]. now destruct b.
Qed.

End ClampFacts.

(** X3. Whatever the engine returns and however the request ends, every
    sample of every float32 payload the streaming generator yields lies in
    [-1, 1]. *)
Theorem streamed_samples_are_clamped (w : World) (counter : nat)
    (text : string) (cs : option nat) (ss sq : option string) :
  Forall clamped_bytes
    (yields (fst (snd (generate_speech_streaming w counter text cs ss sq)))).
Proof.
  apply clamped_yields.
  unfold generate_speech_streaming. cbn [snd].
  apply Forall_bind; [apply Forall_emit; exact I | intros _].
  destruct (get_model w) as [model|].
  - apply Forall_bind; [apply Forall_when, Forall_emit; exact I | intros _].
    apply Forall_bind; [apply Forall_emit; exact I | intros _].
    destruct (MAX_TOTAL_LENGTH (config w) <? String.length text).
    + apply Forall_bind; [apply Forall_emit; exact I | intros _].
      constructor.
    + apply Forall_try_finally; [|apply clamped_periodic_cleanup].
      apply Forall_try_except; [apply clamped_streaming_body | intros e].
      apply Forall_bind; [apply Forall_emit; exact I | intros _].
      constructor.
  - apply Forall_bind; [apply Forall_emit; exact I | intros _].
    constructor.
Qed.

(** ** Engine calls *)

Section CallFacts.

Variable model : Model.

Lemma stream_chunks_debug_raises (n i : nat) (prev : option ndarray)
    (chunk : string) (rest : list string) (t : ndarray) (e : exn) :
  generate model chunk = Ok t ->
  debug_min_max (orient t) = Raise e ->
  stream_chunks model n i prev (chunk :: rest) = ([EvGenerate chunk], Raise e).
Proof.
  intros Hg Hd. cbn [stream_chunks]. rewrite Hg.
  cbn -[periodic_gc stream_chunks stream_pcm debug_min_max orient].
  now rewrite Hd.
Qed.

Lemma stream_chunks_pcm_raises (n i : nat) (prev : option ndarray)
    (chunk : string) (rest : list string) (t : ndarray)
    (ys : list event) (e : exn) :
  generate model chunk = Ok t ->
  debug_min_max (orient t) = Ok tt ->
  stream_pcm prev (orient t) n = (ys, Raise e) ->
  stream_chunks model n i prev (chunk :: rest)
  = (EvGenerate chunk :: ys, Raise e).
Proof.
  intros Hg Hd Hs. cbn [stream_chunks]. rewrite Hg.
  cbn -[periodic_gc stream_chunks stream_pcm debug_min_max orient].
  rewrite Hd.
  cbn -[periodic_gc stream_chunks stream_pcm debug_min_max orient].
  now rewrite Hs.
Qed.

Lemma stream_chunks_calls_prefix (n : nat) (chunks : list string) :
  forall i prev,
    exists rest,
      chunks = calls (fst (stream_chunks model n i prev chunks)) ++ rest
      /\ (snd (stream_chunks model n i prev chunks) = Ok tt -> rest = []).
Proof.
  induction chunks as [|chunk more IH]; intros i prev.
  - exists []. now split.
  - destruct (generate model chunk) as [t | e] eqn:Hg.
    2:{ rewrite (stream_chunks_engine_raises _ _ _ _ _ _ _ Hg).
        exists more. split; [reflexivity | discriminate]. }
    destruct (debug_min_max (orient t)) as [[] | e] eqn:Hd.
    2:{ rewrite (stream_chunks_debug_raises _ _ _ _ _ _ _ Hg Hd).
        exists more. split; [reflexivity | discriminate]. }
    destruct (stream_pcm prev (orient t) n) as [ys [[] | e]] eqn:Hs.
    2:{ rewrite (stream_chunks_pcm_raises _ _ _ _ _ _ _ _ Hg Hd Hs).
        exists more. cbn [fst snd]. split; [|discriminate].
        change (calls (EvGenerate chunk :: ys)) with (chunk :: calls ys).
        pose proof (calls_stream_pcm n prev (orient t)) as Hys.
        rewrite Hs in Hys. cbn [fst] in Hys. now rewrite Hys. }
    rewrite (stream_chunks_cons _ _ _ _ _ _ _ _ Hg Hd Hs). cbn [fst snd].
    destruct (IH (S i) (Some (orient t))) as [rest [Heq Hok]].
    exists rest. split; [|exact Hok].
    change (calls (EvGenerate chunk :: ?l)) with (chunk :: calls l).
    pose proof (calls_stream_pcm n prev (orient t)) as Hys.
    rewrite Hs in Hys. cbn [fst] in Hys.
    rewrite !calls_app, calls_periodic_gc, Hys.
    cbn [app]. now rewrite <- Heq.
Qed.

Lemma generate_chunks_calls_prefix (chunks : list string) :
  forall i,
    exists rest,
      chunks = calls (fst (generate_chunks model i chunks)) ++ rest
      /\ (forall acs, snd (generate_chunks model i chunks) = Ok acs ->
            rest = [] /\ length acs = length chunks).
Proof.
  induction chunks as [|chunk more IH]; intros i.
  - exists []. split; [reflexivity|]. intros acs H. inversion H. now split.
  - cbn [generate_chunks].
    destruct (generate model chunk) as [t | e] eqn:Hg.
    2:{ exists more. split; [reflexivity | discriminate]. }
    cbn -[periodic_gc generate_chunks].
    pose proof (periodic_gc_returns i) as Hgc.
    pose proof (calls_periodic_gc i) as Hcg.
    destruct (periodic_gc i) as [gtr gr]. simpl in Hgc, Hcg. subst gr.
    cbn -[generate_chunks].
    destruct (IH (S i)) as [rest [Heq Hok]].
    destruct (generate_chunks model (S i) more) as [tr [acs | e]];
      cbn [fst snd bind ret] in *.
    + exists rest. split.
      * change (calls (EvStatus ?a :: EvGenerate chunk :: ?l))
          with (chunk :: calls l).
        rewrite app_nil_r, calls_app, Hcg. cbn [app]. now rewrite <- Heq.
      * intros acs' H. inversion H; subst.
        destruct (Hok acs eq_refl) as [-> Hl]. split; [reflexivity|].
        simpl. now rewrite Hl.
    + exists rest. split; [|discriminate].
      change (calls (EvStatus ?a :: EvGenerate chunk :: ?l))
        with (chunk :: calls l).
      rewrite calls_app, Hcg. cbn [app]. now rewrite <- Heq.
Qed.

End CallFacts.

(** X4. In the streaming path the engine is called on the segments in their
    order, once each, from the first on and never past a failure: the calls
    of a run are a prefix of the segment list, and all of it when the run
    ends normally. *)
Theorem streaming_calls_follow_the_segments (w : World) (counter : nat)
    (text : string) (cs : option nat) (ss sq : option string)
    (s : StreamingSettings) (chunks : list string) :
  get_streaming_settings w cs ss sq = Ok s ->
  split_text_for_streaming w text (chunk_size s) (strategy s) (quality s)
  = Ok chunks ->
  let run := snd (generate_speech_streaming w counter text cs ss sq) in
  exists rest,
    chunks = calls (fst run) ++ rest
    /\ (snd run = Ok tt -> rest = []).
Proof.
  intros Hs Hsplit. cbv zeta.
  destruct (get_model w) as [model|] eqn:Hm.
  - destruct (Nat.le_gt_cases (String.length text)
                (MAX_TOTAL_LENGTH (config w))) as [Hlen | Hlen].
    + destruct (stream_chunks_calls_prefix model
                  (fade_samples_of (sr model)) chunks 0 None)
        as [rest [Heq Hok]].
      exists rest. split.
      * rewrite (streaming_accepted_trace w counter text model cs ss sq
                   Hm Hlen).
        destruct (periodic_cleanup_projections (config w) (counter + 1))
          as [_ [_ Hcc]].
        destruct (closing_projections
                    (snd (streaming_body w model text cs ss sq)))
          as [_ [Hcl _]].
        rewrite !calls_app, calls_prologue, Hcc, Hcl, !app_nil_r.
        rewrite streaming_body_cases, Hs, Hsplit. cbv zeta. cbn [fst app].
        change (calls (EvStatus ?a :: EvStatus ?b :: EvYield ?x :: ?l))
          with (calls l).
        rewrite calls_app.
        replace (calls match snd (stream_chunks model _ 0 None chunks) with
                       | Ok _ => [EvStatus COMPLETED]
                       | Raise _ => []
                       end) with (@nil string)
          by (now destruct (snd (stream_chunks model _ 0 None chunks))).
        now rewrite app_nil_r.
      * rewrite (streaming_accepted w counter text model cs ss sq Hm Hlen).
        cbv zeta. cbn [snd].
        rewrite try_finally_result, try_except_on_error. cbn [snd].
        rewrite streaming_body_cases, Hs, Hsplit. cbv zeta. cbn [snd].
        intros H. apply Hok.
        destruct (snd (periodic_cleanup _ _)); [|discriminate].
        destruct (snd (stream_chunks model _ 0 None chunks)) as [[]|];
          [reflexivity | discriminate].
    + rewrite (streaming_too_long w counter text model cs ss sq Hm Hlen).
      exists chunks. cbn [fst snd].
      rewrite calls_app, calls_prologue. split; [reflexivity | discriminate].
  - rewrite (streaming_no_model w counter text cs ss sq Hm).
    exists chunks. split; [reflexivity | discriminate].
Qed.

Lemma streaming_calls_follow_the_segments_witness :
  exists rest,
    ["one"; "oops"; "two"]%string
    = calls (fst (snd (generate_speech_streaming failing_world 0
                         "one oops two" None None None))) ++ rest.
Proof.
  destruct (streaming_calls_follow_the_segments failing_world 0
              "one oops two" None None None demo_settings
              ["one"; "oops"; "two"]%string)
    as [rest [H _]]; [reflexivity | reflexivity |].
  exists rest. exact H.
Defined.

(** X5. In the complete-file path the engine is likewise called on the
    chunks in order, once each and never past a failure; a request that
    returns a buffer has synthesized every chunk. *)
Theorem internal_calls_follow_the_chunks (w : World) (counter : nat)
    (text : string) (chunks : list string) :
  split_text_into_chunks w text (MAX_CHUNK_LENGTH (config w)) = Ok chunks ->
  let run := snd (generate_speech_internal w counter text) in
  exists rest,
    chunks = calls (fst run) ++ rest
    /\ (forall buffer, snd run = Ok buffer -> rest = []).
Proof.
  intros Hsplit. cbv zeta.
  destruct (get_model w) as [model|] eqn:Hm.
  - destruct (Nat.le_gt_cases (String.length text)
                (MAX_TOTAL_LENGTH (config w))) as [Hlen | Hlen].
    + destruct (generate_chunks_calls_prefix model chunks 0)
        as [rest [Heq Hok]].
      exists rest. split.
      * rewrite (internal_accepted_trace w counter text model Hm Hlen).
        destruct (closing_projections (snd (internal_body w model text)))
          as [_ [Hcl _]].
        assert (Hcc : calls
                  (fst (try_except
                          (periodic_cleanup (config w) (counter + 1))
                          (fun _ => ret tt))) = []).
        { rewrite periodic_cleanup_cases.
          destruct (MEMORY_CLEANUP_INTERVAL (config w) =? 0)%Z;
            [reflexivity|].
          now destruct (_ mod _ =? 0)%Z. }
        rewrite !calls_app, calls_prologue, Hcc, Hcl, !app_nil_r.
        rewrite internal_body_cases, Hsplit. cbv zeta. cbn [app].
        destruct (snd (generate_chunks model 0 chunks)) as [acs | e].
        -- destruct (1 <? length acs).
           ++ destruct (concatenate_audio_chunks w acs (sr model));
                cbn [fst]; unfold calls in *;
                cbn [flat_map app]; rewrite flat_map_app;
                cbn [flat_map app]; rewrite app_nil_r; exact Heq.
           ++ destruct acs; cbn [fst]; unfold calls in *;
                cbn [flat_map app]; rewrite ?flat_map_app;
                cbn [flat_map app]; rewrite ?app_nil_r; exact Heq.
        -- cbn [fst]. exact Heq.
      * intros buffer.
        rewrite (internal_accepted w counter text model Hm Hlen).
        cbv zeta. cbn [snd].
        rewrite try_finally_result, try_except_on_error. cbn [snd].
        rewrite internal_body_cases, Hsplit. cbv zeta.
        intros H.
        destruct (snd (generate_chunks model 0 chunks)) as [acs | e].
        -- now destruct (Hok acs eq_refl).
        -- cbn [snd] in H.
           destruct (snd (try_except _ _)); discriminate.
    + rewrite (internal_too_long w counter text model Hm Hlen).
      exists chunks. cbn [fst snd].
      rewrite calls_app, calls_prologue. split; [reflexivity | discriminate].
  - rewrite (internal_no_model w counter text Hm).
    exists chunks. split; [reflexivity | discriminate].
Qed.

Lemma internal_calls_follow_the_chunks_witness :
  exists rest,
    ["one"; "oops"; "two"]%string
    = calls (fst (snd (generate_speech_internal failing_world 0
                         "one oops two"))) ++ rest.
Proof.
  destruct (internal_calls_follow_the_chunks failing_world 0
              "one oops two" ["one"; "oops"; "two"]%string)
    as [rest [H _]]; [reflexivity |].
  exists rest. exact H.
Defined.

(** ** Edge cases of the two paths *)

Section EdgeFacts.

Lemma generate_chunks_all_ok (model : Model) (chunks : list string)
    (tensors : list ndarray) :
  Forall2 (fun c t => generate model c = Ok t) chunks tensors ->
  forall i,
    snd (generate_chunks model i chunks) = Ok tensors
    /\ statuses (fst (generate_chunks model i chunks))
       = repeat GENERATING_AUDIO (length chunks).
Proof.
  induction 1 as [|c t chunks tensors Hg _ IH]; intros i.
  - now split.
  - cbn [generate_chunks]. rewrite Hg.
    cbn -[periodic_gc generate_chunks].
    pose proof (periodic_gc_returns i) as Hgc.
    pose proof (loop_event_statuses _ (loop_event_gc i)) as Hsg.
    destruct (periodic_gc i) as [gtr gr]. simpl in Hgc, Hsg. subst gr.
    cbn -[generate_chunks].
    destruct (IH (S i)) as [Hok Hst].
    destruct (generate_chunks model (S i) chunks) as [tr r].
    cbn [fst snd bind ret] in *. subst r. cbn [fst snd]. split.
    + reflexivity.
    + change (statuses (EvStatus ?a :: EvGenerate c :: ?l))
        with (a :: statuses l).
      rewrite app_nil_r, statuses_app, Hsg, Hst. reflexivity.
Qed.

End EdgeFacts.

(** X6. When the text splits into no chunk at all, the complete-file path
    fails: [audio_chunks[0]] raises, the request ends with status [ERROR]
    and HTTP 500, and the engine is never called. *)
Theorem internal_fails_on_empty_chunk_list (w : World) (counter : nat)
    (text : string) (model : Model) :
  get_model w = Some model ->
  String.length text <= MAX_TOTAL_LENGTH (config w) ->
  split_text_into_chunks w text (MAX_CHUNK_LENGTH (config w)) = Ok [] ->
  let run := snd (generate_speech_internal w counter text) in
  snd run = Raise (HTTPException 500)
  /\ statuses (fst run)
     = statuses (prologue w) ++ [CHUNKING; GENERATING_AUDIO; ERROR]
  /\ calls (fst run) = [].
Proof.
  intros Hm Hlen Hsplit. cbv zeta.
  assert (Hbody : internal_body w model text
                  = ([EvStatus CHUNKING; EvStatus GENERATING_AUDIO],
                     Raise IndexError)).
  { rewrite internal_body_cases, Hsplit. reflexivity. }
  assert (Hfin : forall n,
            try_except (periodic_cleanup (config w) n) (fun _ => ret tt)
            = (fst (try_except (periodic_cleanup (config w) n)
                      (fun _ => ret tt)), Ok tt)
            /\ statuses (fst (try_except (periodic_cleanup (config w) n)
                                (fun _ => ret tt))) = []
            /\ calls (fst (try_except (periodic_cleanup (config w) n)
                             (fun _ => ret tt))) = []).
  { intros n. rewrite periodic_cleanup_cases.
    destruct (MEMORY_CLEANUP_INTERVAL (config w) =? 0)%Z;
      [now repeat split|].
    now destruct (_ mod _ =? 0)%Z. }
  destruct (Hfin (counter + 1)) as [Hf [Hfs Hfc]].
  split; [|split].
  - rewrite (internal_accepted w counter text model Hm Hlen).
    cbv zeta. cbn [snd].
    rewrite try_finally_result, try_except_on_error, Hbody, Hf.
    reflexivity.
  - rewrite (internal_accepted_trace w counter text model Hm Hlen).
    rewrite Hbody. cbn [fst snd closing].
    now rewrite !statuses_app, Hfs, app_nil_r.
  - rewrite (internal_accepted_trace w counter text model Hm Hlen).
    rewrite Hbody. cbn [fst snd closing].
    now rewrite !calls_app, calls_prologue, Hfc.
Qed.

Lemma internal_fails_on_empty_chunk_list_witness :
  snd (snd (generate_speech_internal
              (demo_world (demo_config 100 5)
                 (Some {| sr := 200; generate := mono_engine |}) [])
              0 "")) = Raise (HTTPException 500).
Proof.
  destruct (internal_fails_on_empty_chunk_list
              (demo_world (demo_config 100 5)
                 (Some {| sr := 200; generate := mono_engine |}) [])
              0 "" {| sr := 200; generate := mono_engine |})
    as [H _]; [reflexivity | vm_compute; lia | reflexivity |].
  exact H.
Defined.

(** X7. When the text splits into no segment at all, the streaming path
    still completes: it yields the 44-byte header and nothing else, never
    calls the engine and records [COMPLETED]. *)
Theorem streaming_completes_on_empty_segment_list (w : World)
    (counter : nat) (text : string) (cs : option nat) (ss sq : option string)
    (model : Model) (s : StreamingSettings) :
  get_model w = Some model ->
  String.length text <= MAX_TOTAL_LENGTH (config w) ->
  get_streaming_settings w cs ss sq = Ok s ->
  split_text_for_streaming w text (chunk_size s) (strategy s) (quality s)
  = Ok [] ->
  let run := snd (generate_speech_streaming w counter text cs ss sq) in
  yields (fst run)
  = [Raw (firstn 44 (Wav.save_zeros 1 (sr model) (sr model)))]
  /\ calls (fst run) = []
  /\ statuses (fst run)
     = statuses (prologue w) ++ [CHUNKING; GENERATING_AUDIO; COMPLETED]
  /\ (MEMORY_CLEANUP_INTERVAL (config w) <> 0%Z -> snd run = Ok tt).
Proof.
  intros Hm Hlen Hs Hsplit. cbv zeta.
  assert (Hbody :
    streaming_body w model text cs ss sq
    = ([EvStatus CHUNKING; EvStatus GENERATING_AUDIO;
        EvYield (Raw (firstn 44 (Wav.save_zeros 1 (sr model) (sr model))));
        EvStatus COMPLETED], Ok tt)).
  { rewrite streaming_body_cases, Hs, Hsplit. reflexivity. }
  destruct (periodic_cleanup_projections (config w) (counter + 1))
    as [Hcs [Hcy Hcc]].
  rewrite (streaming_accepted_trace w counter text model cs ss sq Hm Hlen).
  rewrite Hbody. cbn [fst snd closing].
  split; [|split; [|split]].
  - rewrite !yields_app, yields_prologue, Hcy. reflexivity.
  - rewrite !calls_app, calls_prologue, Hcc. reflexivity.
  - rewrite !statuses_app, Hcs. cbn -[prologue]. reflexivity.
  - intros HK.
    rewrite (streaming_accepted w counter text model cs ss sq Hm Hlen).
    cbv zeta. cbn [snd].
    rewrite try_finally_result, try_except_on_error, Hbody. cbn [snd].
    rewrite periodic_cleanup_cases. apply Z.eqb_neq in HK. rewrite HK.
    now destruct (_ mod _ =? 0)%Z.
Qed.

Lemma streaming_completes_on_empty_segment_list_witness :
  calls (fst (snd (generate_speech_streaming
                     (demo_world (demo_config 100 5)
                        (Some {| sr := 200; generate := mono_engine |}) [])
                     0 "" None None None))) = []
  /\ snd (snd (generate_speech_streaming
                 (demo_world (demo_config 100 5)
                    (Some {| sr := 200; generate := mono_engine |}) [])
                 0 "" None None None)) = Ok tt.
Proof.
  destruct (streaming_completes_on_empty_segment_list
              (demo_world (demo_config 100 5)
                 (Some {| sr := 200; generate := mono_engine |}) [])
              0 "" None None None
              {| sr := 200; generate := mono_engine |} demo_settings)
    as [_ [Hc [_ Hr]]];
    [reflexivity | vm_compute; lia | reflexivity | reflexivity |].
  split; [exact Hc | apply Hr; discriminate].
Defined.

(** X8. With a cleanup interval of zero, the modulo of the [finally] block
    raises.  The complete-file path swallows the error and returns what its
    [try] block produced; the streaming path lets it escape, so every
    request that reached the [try] block ends in [ZeroDivisionError], also
    after a stream that completed.  Neither path runs [cleanup_memory]. *)
Theorem zero_cleanup_interval (w : World) (counter : nat) (text : string)
    (cs : option nat) (ss sq : option string) (model : Model) :
  MEMORY_CLEANUP_INTERVAL (config w) = 0%Z ->
  get_model w = Some model ->
  String.length text <= MAX_TOTAL_LENGTH (config w) ->
  let streamed := snd (generate_speech_streaming w counter text cs ss sq) in
  let filed := snd (generate_speech_internal w counter text) in
  snd streamed = Raise ZeroDivisionError
  /\ snd filed = snd (try_except (internal_body w model text) on_error)
  /\ cleanups (fst streamed) = 0 /\ cleanups (fst filed) = 0.
Proof.
  intros HK Hm Hlen. cbv zeta.
  assert (Hpc : periodic_cleanup (config w) (counter + 1)
                = ([], Raise ZeroDivisionError)).
  { rewrite periodic_cleanup_cases, HK. reflexivity. }
  split; [|split; [|split]].
  - rewrite (streaming_accepted w counter text model cs ss sq Hm Hlen).
    cbv zeta. cbn [snd]. now rewrite try_finally_result, Hpc.
  - rewrite (internal_accepted w counter text model Hm Hlen).
    cbv zeta. cbn [snd]. now rewrite try_finally_result, Hpc.
  - rewrite (streaming_accepted_trace w counter text model cs ss sq Hm Hlen).
    rewrite Hpc. cbn [fst].
    now rewrite app_nil_r, cleanups_app, cleanups_prologue,
      cleanups_streaming_body.
  - rewrite (internal_accepted_trace w counter text model Hm Hlen).
    rewrite Hpc. cbn [fst try_except ret app].
    now rewrite app_nil_r, cleanups_app, cleanups_prologue,
      cleanups_internal_body.
Qed.

Lemma zero_cleanup_interval_witness :
  snd (snd (generate_speech_streaming
              (demo_world (demo_config 100 0)
                 (Some {| sr := 200; generate := mono_engine |})
                 ["one"; "two"]%string)
              0 "one two" None None None)) = Raise ZeroDivisionError.
Proof.
  destruct (zero_cleanup_interval
              (demo_world (demo_config 100 0)
                 (Some {| sr := 200; generate := mono_engine |})
                 ["one"; "two"]%string)
              0 "one two" None None None
              {| sr := 200; generate := mono_engine |})
    as [H _]; [reflexivity | reflexivity | vm_compute; lia |].
  exact H.
Defined.

(** X9. When the engine succeeds on every chunk, the complete-file path
    returns, at the model's sample rate, the engine's tensor itself for a
    single chunk - without a Concatenating phase - and for several chunks
    what [concatenate_audio_chunks] makes of all tensors in chunk order; a
    failure of the concatenation ends the request with HTTP 500. *)
Theorem internal_returns_the_synthesized_audio (w : World) (counter : nat)
    (text : string) (model : Model) (chunks : list string)
    (tensors : list ndarray) :
  get_model w = Some model ->
  String.length text <= MAX_TOTAL_LENGTH (config w) ->
  split_text_into_chunks w text (MAX_CHUNK_LENGTH (config w)) = Ok chunks ->
  Forall2 (fun c t => generate model c = Ok t) chunks tensors ->
  let run := snd (generate_speech_internal w counter text) in
  (forall t, tensors = [t] ->
     snd run = Ok {| saved_audio := t; saved_rate := sr model |}
     /\ statuses (fst run)
        = statuses (prologue w)
          ++ [CHUNKING; GENERATING_AUDIO; GENERATING_AUDIO;
              FINALIZING; COMPLETED])
  /\ (2 <= length tensors ->
      snd run
      = match concatenate_audio_chunks w tensors (sr model) with
        | Ok final_audio =>
            Ok {| saved_audio := final_audio; saved_rate := sr model |}
        | Raise _ => Raise (HTTPException 500)
        end
      /\ In CONCATENATING (statuses (fst run))).
Proof.
  intros Hm Hlen Hsplit Hall. cbv zeta.
  destruct (generate_chunks_all_ok model chunks tensors Hall 0)
    as [Hok Hst].
  assert (Hfin :
    try_except (periodic_cleanup (config w) (counter + 1)) (fun _ => ret tt)
    = (fst (try_except (periodic_cleanup (config w) (counter + 1))
              (fun _ => ret tt)), Ok tt)
    /\ statuses (fst (try_except (periodic_cleanup (config w) (counter + 1))
                        (fun _ => ret tt))) = []).
  { rewrite periodic_cleanup_cases.
    destruct (MEMORY_CLEANUP_INTERVAL (config w) =? 0)%Z;
      [now split|].
    now destruct (_ mod _ =? 0)%Z. }
  destruct Hfin as [Hf Hfs].
  pose proof (internal_accepted w counter text model Hm Hlen) as Hrun.
  pose proof (internal_accepted_trace w counter text model Hm Hlen) as Htr.
  cbv zeta in Hrun.
  split.
  - intros t ->.
    assert (Hchunks : length chunks = 1)
      by (now rewrite (Forall2_length Hall)).
    assert (Hbody :
      internal_body w model text
      = (EvStatus CHUNKING :: EvStatus GENERATING_AUDIO
           :: fst (generate_chunks model 0 chunks)
           ++ [EvStatus FINALIZING; EvStatus COMPLETED],
         Ok {| saved_audio := t; saved_rate := sr model |})).
    { rewrite internal_body_cases, Hsplit. cbv zeta. rewrite Hok.
      reflexivity. }
    split.
    + rewrite Hrun. cbn [snd].
      rewrite try_finally_result, try_except_on_error, Hbody, Hf.
      reflexivity.
    + rewrite Htr, Hbody. cbn [fst snd closing].
      rewrite !statuses_app, Hfs, !app_nil_r.
      change (statuses (EvStatus CHUNKING :: EvStatus GENERATING_AUDIO :: ?l))
        with (CHUNKING :: GENERATING_AUDIO :: statuses l).
      now rewrite statuses_app, Hst, Hchunks.
  - intros H2.
    assert (Hlt : (1 <? length tensors) = true) by (apply Nat.ltb_lt; lia).
    destruct (concatenate_audio_chunks w tensors (sr model))
      as [final_audio | e] eqn:Hcat.
    + assert (Hbody :
        internal_body w model text
        = ((EvStatus CHUNKING :: EvStatus GENERATING_AUDIO
              :: fst (generate_chunks model 0 chunks))
             ++ [EvStatus CONCATENATING; EvStatus FINALIZING;
                 EvStatus COMPLETED],
           Ok {| saved_audio := final_audio; saved_rate := sr model |})).
      { rewrite internal_body_cases, Hsplit. cbv zeta.
        rewrite Hok, Hlt, Hcat. reflexivity. }
      split.
      * rewrite Hrun. cbn [snd].
        rewrite try_finally_result, try_except_on_error, Hbody, Hf.
        reflexivity.
      * rewrite Htr, Hbody. cbn [fst snd closing].
        rewrite !statuses_app. apply in_or_app. right.
        apply in_or_app. left. apply in_or_app. right. now left.
    + assert (Hbody :
        internal_body w model text
        = ((EvStatus CHUNKING :: EvStatus GENERATING_AUDIO
              :: fst (generate_chunks model 0 chunks))
             ++ [EvStatus CONCATENATING], Raise e)).
      { rewrite internal_body_cases, Hsplit. cbv zeta.
        rewrite Hok, Hlt, Hcat. reflexivity. }
      split.
      * rewrite Hrun. cbn [snd].
        rewrite try_finally_result, try_except_on_error, Hbody, Hf.
        reflexivity.
      * rewrite Htr, Hbody. cbn [fst snd closing].
        rewrite !statuses_app. apply in_or_app. right.
        apply in_or_app. left. apply in_or_app. right. now left.
Qed.

Lemma internal_returns_the_synthesized_audio_witness :
  snd (snd (generate_speech_internal
              (demo_world (demo_config 100 5)
                 (Some {| sr := 200; generate := mono_engine |})
                 ["one"]%string)
              0 "one"))
  = Ok {| saved_audio := [[1 # 8; 2 # 8; 3 # 8]]%Q; saved_rate := 200 |}.
Proof.
  destruct (internal_returns_the_synthesized_audio
              (demo_world (demo_config 100 5)
                 (Some {| sr := 200; generate := mono_engine |})
                 ["one"]%string)
              0 "one" {| sr := 200; generate := mono_engine |}
              ["one"]%string [[[1 # 8; 2 # 8; 3 # 8]]%Q])
    as [H _];
    [ reflexivity | vm_compute; lia | reflexivity
    | repeat constructor | ].
  destruct (H _ eq_refl) as [Hr _]. exact Hr.
Defined.

(** ** Mono engines *)

Section MonoStream.

Variable model : Model.
Variable n : nat.
Hypothesis fade_at_least_two : 2 <= n.

Lemma orient_mono (row : list Q) :
  1 < length row ->
  orient [row] = map (fun x => [x]) row /\ shape1 (orient [row]) = 1.
Proof.
  intros Hlen.
  assert (Hor : orient [row] = map (fun x => [x]) row).
  { unfold orient. cbn [shape0 shape1 length].
    apply Nat.ltb_lt in Hlen. rewrite Hlen. apply transpose_row. }
  split; [exact Hor|].
  rewrite Hor. destruct row; simpl in *; [lia | reflexivity].
Qed.

Lemma pcm_bytes_mono (row : list Q) :
  1 < length row ->
  pcm_bytes (orient [row]) = Float32 (map (clip1 (-1) 1) row).
Proof.
  intros Hlen. destruct (orient_mono row Hlen) as [Hor _].
  now rewrite pcm_bytes_samples, Hor, ravel_columns.
Qed.

Lemma stream_pcm_mono (prev : option ndarray) (row : list Q) :
  1 < length row ->
  stream_pcm prev (orient [row]) n
  = ([EvYield (Float32 (map (clip1 (-1) 1) row))], Ok tt).
Proof.
  intros Hlen. destruct (orient_mono row Hlen) as [_ Hs1].
  destruct prev as [p|].
  - rewrite (stream_pcm_passthrough p (orient [row]) (orient [row]) n).
    + rewrite chunk_to_stream_short by lia. now rewrite pcm_bytes_mono.
    + apply crossfade_pcm_short. right. lia.
  - rewrite stream_pcm_first, chunk_to_stream_short by lia.
    now rewrite pcm_bytes_mono.
Qed.

Lemma yields_periodic_gc (i : nat) : yields (fst (periodic_gc i)) = [].
Proof.
  unfold periodic_gc, when. now destruct ((0 <? i) && (i mod 3 =? 0)).
Qed.

Lemma stream_chunks_mono (chunks : list string) (rows : list (list Q)) :
  Forall2 (fun c row => generate model c = Ok [row] /\ 1 < length row)
    chunks rows ->
  forall i prev,
    snd (stream_chunks model n i prev chunks) = Ok tt
    /\ yields (fst (stream_chunks model n i prev chunks))
       = map (fun row => Float32 (map (clip1 (-1) 1) row)) rows.
Proof.
  induction 1 as [|c row chunks rows [Hg Hlen] _ IH]; intros i prev.
  - now split.
  - destruct (orient_mono row Hlen) as [_ Hs1].
    rewrite (stream_chunks_cons model n i prev c chunks [row]
               [EvYield (Float32 (map (clip1 (-1) 1) row))] Hg).
    + cbn [fst snd]. destruct (IH (S i) (Some (orient [row]))) as [Hok Hy].
      split; [exact Hok|].
      change (yields (EvGenerate c :: ?l)) with (yields l).
      rewrite !yields_app, yields_periodic_gc, Hy. reflexivity.
    + apply orient_size_pos. lia.
    + now apply stream_pcm_mono.
Qed.

End MonoStream.

(** X10. For an engine that returns every segment as one channel of more
    than one sample (shape [(1, T)]) at a sample rate of at least 200 Hz,
    crossfading never takes place: the stream is the header followed by one
    payload per segment, in order, holding all of that segment's samples
    clamped to [-1, 1]; no sample is held back, blended, dropped or
    repeated. *)
Theorem mono_stream_is_plain_concatenation (w : World) (counter : nat)
    (text : string) (cs : option nat) (ss sq : option string)
    (model : Model) (s : StreamingSettings)
    (chunks : list string) (rows : list (list Q)) :
  get_model w = Some model ->
  String.length text <= MAX_TOTAL_LENGTH (config w) ->
  get_streaming_settings w cs ss sq = Ok s ->
  split_text_for_streaming w text (chunk_size s) (strategy s) (quality s)
  = Ok chunks ->
  Forall2 (fun c row => generate model c = Ok [row] /\ 1 < length row)
    chunks rows ->
  2 <= fade_samples_of (sr model) ->
  let run := snd (generate_speech_streaming w counter text cs ss sq) in
  yields (fst run)
  = Raw (firstn 44 (Wav.save_zeros 1 (sr model) (sr model)))
      :: map (fun row => Float32 (map (clip1 (-1) 1) row)) rows
  /\ calls (fst run) = chunks
  /\ last (statuses (fst run)) INITIALIZING = COMPLETED.
Proof.
  intros Hm Hlen Hs Hsplit Hall Hfade. cbv zeta.
  destruct (stream_chunks_mono model (fade_samples_of (sr model)) Hfade
              chunks rows Hall 0 None) as [Hok Hy].
  destruct (stream_chunks model (fade_samples_of (sr model)) 0 None chunks)
    as [tr r] eqn:Hloop.
  cbn [fst snd] in Hok, Hy. subst r.
  assert (Hbody :
    streaming_body w model text cs ss sq
    = (EvStatus CHUNKING :: EvStatus GENERATING_AUDIO
         :: EvYield (Raw (firstn 44 (Wav.save_zeros 1 (sr model) (sr model))))
         :: tr ++ [EvStatus COMPLETED], Ok tt)).
  { rewrite streaming_body_cases, Hs, Hsplit. cbv zeta.
    now rewrite Hloop. }
  destruct (periodic_cleanup_projections (config w) (counter + 1))
    as [Hcs [Hcy Hcc]].
  rewrite (streaming_accepted_trace w counter text model cs ss sq Hm Hlen).
  rewrite Hbody. cbn [fst snd closing].
  split; [|split].
  - rewrite !yields_app, yields_prologue, Hcy.
    change (yields (EvStatus ?a :: EvStatus ?b :: EvYield ?x :: ?l))
      with (x :: yields l).
    rewrite yields_app, Hy. cbn [yields flat_map app].
    now rewrite !app_nil_r.
  - rewrite !calls_app, calls_prologue, Hcc.
    change (calls (EvStatus ?a :: EvStatus ?b :: EvYield ?x :: ?l))
      with (calls l).
    rewrite calls_app,
      (stream_chunks_ok_calls model _ chunks 0 None tr Hloop).
    cbn [calls flat_map app]. now rewrite !app_nil_r.
  - rewrite !statuses_app, Hcs.
    change (statuses (EvStatus ?a :: EvStatus ?b :: EvYield ?x :: ?l))
      with (a :: b :: statuses l).
    rewrite statuses_app.
    change (statuses [EvStatus COMPLETED]) with [COMPLETED].
    cbn [app]. rewrite !app_nil_r.
    change (CHUNKING :: GENERATING_AUDIO :: statuses tr ++ [COMPLETED])
      with ((CHUNKING :: GENERATING_AUDIO :: statuses tr) ++ [COMPLETED]).
    rewrite app_assoc. apply last_last.
Qed.

Lemma mono_stream_is_plain_concatenation_witness :
  yields (fst (snd (generate_speech_streaming mono_world 0 "one two"
                      None None None)))
  = Raw (firstn 44 (Wav.save_zeros 1 200 200))
      :: map (fun row => Float32 (map (clip1 (-1) 1) row))
           [[1 # 8; 2 # 8; 3 # 8]; [4 # 8; 5 # 8; 6 # 8]]%Q.
Proof.
  destruct (mono_stream_is_plain_concatenation mono_world 0 "one two"
              None None None
              {| sr := 200; generate := mono_engine |} demo_settings
              ["one"; "two"]%string
              [[1 # 8; 2 # 8; 3 # 8]; [4 # 8; 5 # 8; 6 # 8]]%Q)
    as [H _];
    [ reflexivity | vm_compute; lia | reflexivity | reflexivity
    | repeat constructor; simpl; lia | vm_compute; lia | ].
  exact H.
Defined.


(** ** Garbage collection cadence *)

Section GcFacts.

Variable model : Model.

Lemma gcs_app (a b : list event) : gcs (a ++ b) = gcs a + gcs b.
Proof. unfold gcs. now rewrite filter_app, length_app. Qed.

Lemma gcs_periodic_gc (i : nat) :
  gcs (fst (periodic_gc i)) = if gc_due i then 1 else 0.
Proof.
  unfold periodic_gc, when, gc_due.
  now destruct ((0 <? i) && (i mod 3 =? 0)).
Qed.

Lemma gcs_stream_pcm (prev : option ndarray) (np_pcm : ndarray) (n : nat) :
  gcs (fst (stream_pcm prev np_pcm n)) = 0.
Proof.
  unfold stream_pcm. destruct prev as [prev|]; [|reflexivity].
  now destruct (crossfade_pcm (Some prev) np_pcm n) as [[[c|] trimmed] | e].
Qed.

Lemma gcs_stream_chunks (n : nat) (chunks : list string) :
  forall i prev tr,
    stream_chunks model n i prev chunks = (tr, Ok tt) ->
    gcs tr = length (filter gc_due (seq i (length chunks))).
Proof.
  induction chunks as [|chunk rest IH]; intros i prev tr H.
  - inversion H. reflexivity.
  - apply stream_chunks_cons_inv in H.
    destruct H as [t [ys [tr' [Hg [Hd [Hs [Hr ->]]]]]]].
    change (gcs (EvGenerate chunk :: ?l)) with (gcs l).
    rewrite !gcs_app, gcs_periodic_gc, (IH _ _ _ Hr).
    pose proof (gcs_stream_pcm prev (orient t) n) as Hys.
    rewrite Hs in Hys. cbn [fst] in Hys. rewrite Hys.
    cbn [length seq filter]. now destruct (gc_due i).
Qed.

Lemma gcs_generate_chunks (chunks : list string) :
  forall i acs,
    snd (generate_chunks model i chunks) = Ok acs ->
    gcs (fst (generate_chunks model i chunks))
    = length (filter gc_due (seq i (length chunks))).
Proof.
  induction chunks as [|chunk rest IH]; intros i acs H.
  - reflexivity.
  - cbn [generate_chunks] in *.
    destruct (generate model chunk) as [t | e]; [|discriminate].
    cbn -[periodic_gc generate_chunks] in *.
    pose proof (periodic_gc_returns i) as Hgc.
    pose proof (gcs_periodic_gc i) as Hcount.
    destruct (periodic_gc i) as [gtr gr]. simpl in Hgc, Hcount. subst gr.
    cbn -[generate_chunks] in *.
    specialize (IH (S i)).
    destruct (generate_chunks model (S i) rest) as [tr [more | e]];
      cbn [fst snd bind ret] in *; [|discriminate].
    change (gcs (EvStatus ?a :: EvGenerate chunk :: ?l)) with (gcs l).
    rewrite app_nil_r, gcs_app, Hcount, (IH more eq_refl).
    cbn [length seq filter]. now destruct (gc_due i).
Qed.

Lemma no_gc_below_four (k : nat) :
  k <= 3 -> filter gc_due (seq 0 k) = [].
Proof.
  intros H. destruct k as [|[|[|[|k]]]]; try reflexivity. lia.
Qed.

End GcFacts.

(** X11. Inside a request garbage is collected once after every chunk
    whose index is a positive multiple of three - after the fourth, the
    seventh, the tenth chunk - in the streaming loop and in the loop of the
    complete-file path alike; a request of at most three chunks never
    collects inside its loop. *)
Theorem garbage_is_collected_every_third_index (model : Model)
    (n : nat) (chunks : list string) (tr : list event)
    (tensors : list ndarray) :
  stream_chunks model n 0 None chunks = (tr, Ok tt) ->
  snd (generate_chunks model 0 chunks) = Ok tensors ->
  gcs tr = length (filter gc_due (seq 0 (length chunks)))
  /\ gcs (fst (generate_chunks model 0 chunks))
     = length (filter gc_due (seq 0 (length chunks)))
  /\ (length chunks <= 3 ->
      gcs tr = 0 /\ gcs (fst (generate_chunks model 0 chunks)) = 0).
Proof.
  intros Hs Hg.
  pose proof (gcs_stream_chunks model n chunks 0 None tr Hs) as H1.
  pose proof (gcs_generate_chunks model chunks 0 tensors Hg) as H2.
  split; [exact H1 | split; [exact H2|]].
  intros Hle. rewrite H1, H2, (no_gc_below_four _ Hle). now split.
Qed.

Lemma garbage_is_collected_every_third_index_witness :
  gcs (fst (generate_chunks {| sr := 100; generate := unit_engine |} 0
              ["a"; "b"; "c"; "d"; "e"]%string)) = 1.
Proof.
  destruct (garbage_is_collected_every_third_index
              {| sr := 100; generate := unit_engine |} 2
              ["a"; "b"; "c"; "d"; "e"]%string
              (fst (stream_chunks {| sr := 100; generate := unit_engine |}
                      2 0 None ["a"; "b"; "c"; "d"; "e"]%string))
              (repeat [[1 # 4]]%Q 5))
    as [_ [H _]]; [reflexivity | reflexivity |].
  exact H.
Defined.

(** ** The example clients *)

Section ClientFacts.

Import Client.

Lemma read_header_full (h remainder : list Z) (it : list (list Z)) :
  44 <= length h -> read_header h remainder it = Done (h, remainder, it).
Proof.
  intros H. apply Nat.ltb_ge in H.
  destruct it; cbn [read_header]; now rewrite H.
Qed.

Lemma read_header_spec (it : list (list Z)) :
  forall acc rem0,
    length acc < 44 ->
    (length (acc ++ concat it) < 44 ->
     read_header acc rem0 it = Failed NoHeader)
    /\ (44 <= length (acc ++ concat it) ->
        exists remainder rest,
          read_header acc rem0 it
          = Done (firstn 44 (acc ++ concat it), remainder, rest)
          /\ remainder ++ concat rest = skipn 44 (acc ++ concat it)).
Proof.
  induction it as [|chunk it IH]; intros acc rem0 Hacc.
  - cbn [concat]. rewrite app_nil_r. apply Nat.ltb_lt in Hacc as Hb.
    split; [intros _; cbn [read_header]; now rewrite Hb | lia].
  - apply Nat.ltb_lt in Hacc as Hb.
    cbn [read_header concat]. rewrite Hb.
    set (needed := 44 - length acc).
    destruct (Nat.le_gt_cases needed (length chunk)) as [Hfit | Hshort].
    + (* this chunk completes the header *)
      assert (Hlen : length (acc ++ firstn needed chunk) = 44).
      { rewrite length_app, length_firstn. unfold needed. lia. }
      rewrite read_header_full by lia.
      split.
      * rewrite !length_app. unfold needed in Hfit. lia.
      * intros _.
        exists (if needed <? length chunk then skipn needed chunk else []),
               it.
        assert (Hsplit : acc ++ chunk ++ concat it
                         = (acc ++ firstn needed chunk)
                           ++ skipn needed chunk ++ concat it).
        { rewrite <- app_assoc. f_equal.
          now rewrite app_assoc, firstn_skipn. }
        rewrite Hsplit. split.
        -- now rewrite (firstn_all_app _ _ 44 Hlen).
        -- rewrite skipn_app, Hlen, Nat.sub_diag.
           rewrite (skipn_all2 (acc ++ firstn needed chunk)) by lia.
           cbn [skipn app]. f_equal.
           destruct (needed <? length chunk) eqn:E; [reflexivity|].
           apply Nat.ltb_ge in E. symmetry. apply skipn_all2. exact E.
    + (* the chunk is swallowed whole *)
      rewrite firstn_all2 by lia.
      assert (Hrem : (needed <? length chunk) = false)
        by (apply Nat.ltb_ge; lia).
      rewrite Hrem.
      assert (Hacc' : length (acc ++ chunk) < 44).
      { rewrite length_app. unfold needed in Hshort. lia. }
      destruct (IH (acc ++ chunk) [] Hacc') as [Hfail Hdone].
      rewrite <- app_assoc in Hfail, Hdone. split; assumption.
Qed.

Lemma concat_items (size : nat) :
  0 < size ->
  forall fuel b, length b <= fuel -> concat (items fuel size b) = b.
Proof.
  intros Hsize. induction fuel as [|fuel IH]; intros b Hb.
  - destruct b; [reflexivity | simpl in Hb; lia].
  - destruct b as [|x b]; [reflexivity|].
    cbn [items concat]. rewrite IH.
    + apply firstn_skipn.
    + rewrite length_skipn. cbn [length] in *. lia.
Qed.

Lemma length_items (size : nat) :
  0 < size ->
  forall fuel b,
    length b <= fuel -> length b mod size = 0 ->
    length (items fuel size b) = length b / size.
Proof.
  intros Hsize. induction fuel as [|fuel IH]; intros b Hb Hmod.
  - destruct b; [simpl; symmetry; apply Nat.Div0.div_0_l
                | simpl in Hb; lia].
  - destruct b as [|x b]; [simpl; symmetry; apply Nat.Div0.div_0_l|].
    cbn [items length].
    pose proof (Nat.div_mod_eq (length (x :: b)) size) as Hdm.
    rewrite Hmod, Nat.add_0_r in Hdm.
    assert (Hq : 0 < length (x :: b) / size).
    { destruct (length (x :: b) / size) eqn:E; [|lia].
      rewrite Nat.mul_0_r in Hdm. simpl in Hdm. lia. }
    assert (Hge : size <= length (x :: b)) by nia.
    assert (Hsk : length (skipn size (x :: b))
                  = size * (length (x :: b) / size - 1)).
    { rewrite length_skipn. nia. }
    rewrite IH.
    + rewrite Hsk, Nat.mul_comm, Nat.div_mul by lia. cbn [length] in *. lia.
    + rewrite length_skipn. cbn [length] in *. lia.
    + rewrite Hsk, Nat.mul_comm. apply Nat.Div0.mod_mul.
Qed.

Lemma itemsize_pos (d : dtype) : 0 < itemsize d.
Proof. destruct d; simpl; lia. Qed.

Lemma decode_whole_frames (d : dtype) (channels : Z) (chunk : list Z) :
  whole_frames d channels chunk ->
  exists data, decode d channels chunk = Done data /\ tobytes data = chunk.
Proof.
  intros [Hitems Hframes]. unfold decode, frombuffer.
  apply Nat.eqb_eq in Hitems as Hb. rewrite Hb.
  exists (items (length chunk) (itemsize d) chunk). split.
  - unfold reshape. destruct (1 <? channels)%Z eqn:Hc; [|reflexivity].
    apply Z.ltb_lt in Hc.
    rewrite length_items by (try apply itemsize_pos; auto).
    specialize (Hframes Hc). apply Z.eqb_eq in Hframes.
    now rewrite Hframes.
  - unfold tobytes. apply concat_items; [apply itemsize_pos | lia].
Qed.

Lemma decode_done_whole_frames (d : dtype) (channels : Z) (chunk : list Z)
    (data : list (list Z)) :
  decode d channels chunk = Done data -> whole_frames d channels chunk.
Proof.
  unfold decode, frombuffer.
  destruct (length chunk mod itemsize d =? 0) eqn:Hb; [|discriminate].
  apply Nat.eqb_eq in Hb. unfold reshape. intros H. split; [exact Hb|].
  intros Hc. apply Z.ltb_lt in Hc. rewrite Hc in H.
  rewrite length_items in H by (try apply itemsize_pos; auto).
  destruct (_ mod channels =? 0)%Z eqn:E; [|discriminate].
  now apply Z.eqb_eq.
Qed.

End ClientFacts.

(** X12. The clients' header loop neither loses nor reorders bytes: when
    the response body holds at least 44 bytes, the header is its first 44
    bytes and the remainder followed by the chunks left in the iterator is
    exactly the rest of the body, however the transport cut the body into
    chunks; with fewer than 44 bytes the client stops with "No WAV header
    received". *)
Theorem header_loop_conserves_the_body (it : list (list Z)) :
  (length (concat it) < 44 ->
   Client.read_header [] [] it = Client.Failed Client.NoHeader)
  /\ (44 <= length (concat it) ->
      exists remainder rest,
        Client.read_header [] [] it
        = Client.Done (firstn 44 (concat it), remainder, rest)
        /\ remainder ++ concat rest = skipn 44 (concat it)).
Proof.
  apply (read_header_spec it [] []). simpl. lia.
Qed.

(** X13. Whatever chunks the transport delivers, a client reading the
    stream of [generate_speech_streaming] finds in its first 44 bytes one
    channel, the model's sample rate and the float32 sample type, and goes
    on to play: the header the server yields is one the bundled clients
    accept. *)
Theorem clients_accept_the_streamed_header (sample_rate : nat)
    (body : list Z) (it : list (list Z)) :
  (Z.of_nat sample_rate < 2 ^ 32)%Z ->
  concat it
  = firstn 44 (Wav.save_zeros 1 sample_rate sample_rate) ++ body ->
  exists played,
    Client.stream_and_play it
    = Client.Done (1%Z, Z.of_nat sample_rate, Client.float32, played).
Proof.
  intros Hsr Hbody.
  rewrite header_of_save_zeros in Hbody.
  destruct (read_header_spec it [] []) as [_ Hdone]; [simpl; lia|].
  cbn [app] in Hdone.
  destruct Hdone as [remainder [rest [Hread _]]].
  { rewrite Hbody, length_app, length_wav_header. lia. }
  unfold Client.stream_and_play. rewrite Hread, Hbody.
  rewrite (firstn_all_app _ _ 44) by apply length_wav_header.
  unfold Client.parse. rewrite parse_streamed_header by exact Hsr.
  cbn. eexists. reflexivity.
Qed.

Lemma clients_accept_the_streamed_header_witness :
  exists played,
    Client.stream_and_play
      [firstn 40 (Wav.save_zeros 1 300 300);
       firstn 12 (skipn 40 (Wav.save_zeros 1 300 300))]
    = Client.Done (1%Z, 300%Z, Client.float32, played).
Proof.
  apply (clients_accept_the_streamed_header 300
           (firstn 8 (skipn 44 (Wav.save_zeros 1 300 300)))).
  - vm_compute. reflexivity.
  - vm_compute. reflexivity.
Defined.

Section PlaybackFacts.

Import Client.

Lemma whole_frames_nil (d : dtype) (channels : Z) : whole_frames d channels [].
Proof.
  split; [apply Nat.Div0.mod_0_l|].
  intros _. cbn [length]. rewrite Nat.Div0.div_0_l. apply Zmod_0_l.
Qed.

Lemma decode_tobytes (d : dtype) (channels : Z) (chunk : list Z)
    (data : list (list Z)) :
  decode d channels chunk = Done data -> tobytes data = chunk.
Proof.
  intros H.
  destruct (decode_whole_frames d channels chunk
              (decode_done_whole_frames d channels chunk data H))
    as [data' [H' Hb]].
  rewrite H in H'. inversion H'. now subst.
Qed.

Lemma play_prefix (d : dtype) (channels : Z) (chunks : list (list Z)) :
  exists rest, concat chunks = concat (fst (play d channels chunks)) ++ rest.
Proof.
  induction chunks as [|chunk chunks [rest IH]]; [now exists []|].
  cbn [play]. destruct chunk as [|x chunk]; [now exists rest|].
  destruct (decode d channels (x :: chunk)) as [data | e] eqn:Hd.
  - destruct (play d channels chunks) as [written err]. cbn [fst] in *.
    exists rest. cbn [concat].
    fold (tobytes data). rewrite (decode_tobytes _ _ _ _ Hd), IH.
    now rewrite <- app_assoc.
  - now exists (concat ((x :: chunk) :: chunks)).
Qed.

Lemma play_whole (d : dtype) (channels : Z) (chunks : list (list Z)) :
  Forall (whole_frames d channels) chunks ->
  play d channels chunks
  = (filter (fun c => negb (length c =? 0)) chunks, None).
Proof.
  induction 1 as [|chunk chunks Hc _ IH]; [reflexivity|].
  cbn [play filter]. destruct chunk as [|x chunk]; [exact IH|].
  destruct (decode_whole_frames d channels (x :: chunk) Hc)
    as [data [Hd Hb]].
  rewrite Hd, IH. cbn [length Nat.eqb negb]. now rewrite Hb.
Qed.

Lemma play_none (d : dtype) (channels : Z) (chunks : list (list Z)) :
  snd (play d channels chunks) = None ->
  Forall (whole_frames d channels) chunks.
Proof.
  induction chunks as [|chunk chunks IH]; intros H; [constructor|].
  cbn [play] in H. destruct chunk as [|x chunk].
  - constructor; [apply whole_frames_nil | now apply IH].
  - destruct (decode d channels (x :: chunk)) as [data | e] eqn:Hd;
      [|discriminate].
    destruct (play d channels chunks) as [written err]. cbn [snd] in *.
    constructor; [now apply (decode_done_whole_frames _ _ _ data) | auto].
Qed.

Lemma concat_filter_nonempty (chunks : list (list Z)) :
  concat (filter (fun c => negb (length c =? 0)) chunks) = concat chunks.
Proof.
  induction chunks as [|chunk chunks IH]; [reflexivity|].
  cbn [filter concat]. destruct chunk; cbn; [exact IH | now rewrite IH].
Qed.

End PlaybackFacts.

(** X14. [parse_wav_header] fails exactly on fewer than 44 bytes and reads
    bytes 20 to 35 only: the RIFF, WAVE and data tags and both size fields
    are never inspected, so the placeholder sizes of a streamed header do
    not affect what the clients make of it. *)
Theorem parse_wav_header_reads_the_format_only
    (pre pre' mid post post' : list Z) :
  length pre = 20 -> length pre' = 20 -> length mid = 16 ->
  8 <= length post -> 8 <= length post' ->
  (exists fields,
     Wav.parse_wav_header (pre ++ mid ++ post) = Ok fields
     /\ Wav.parse_wav_header (pre' ++ mid ++ post') = Ok fields)
  /\ (forall h, length h < 44 -> Wav.parse_wav_header h = Raise ValueError).
Proof.
  intros Hpre Hpre' Hmid Hpost Hpost'. split.
  - do 20 (destruct pre as [|? pre]; [discriminate|]).
    do 20 (destruct pre' as [|? pre']; [discriminate|]).
    do 16 (destruct mid as [|? mid]; [discriminate|]).
    do 8 (destruct post as [|? post]; [simpl in Hpost; lia|]).
    do 8 (destruct post' as [|? post']; [simpl in Hpost'; lia|]).
    destruct pre; [|discriminate].
    destruct pre'; [|discriminate].
    destruct mid; [|discriminate].
    eexists. split; reflexivity.
  - intros h Hh. unfold Wav.parse_wav_header.
    apply Nat.ltb_lt in Hh. now rewrite Hh.
Qed.

Lemma parse_wav_header_reads_the_format_only_witness :
  exists fields,
    Wav.parse_wav_header
      (repeat 0%Z 20 ++ [3; 0; 1; 0; 44; 1; 0; 0; 176; 4; 0; 0; 4; 0; 32; 0]%Z
         ++ repeat 255%Z 8) = Ok fields
    /\ Wav.parse_wav_header (Wav.wav_header 1 300 300) = Ok fields.
Proof.
  destruct (parse_wav_header_reads_the_format_only
              (repeat 0%Z 20) (firstn 20 (Wav.wav_header 1 300 300))
              [3; 0; 1; 0; 44; 1; 0; 0; 176; 4; 0; 0; 4; 0; 32; 0]%Z
              (repeat 255%Z 8) (skipn 36 (Wav.wav_header 1 300 300)))
    as [[fields [H1 H2]] _];
    [reflexivity | reflexivity | reflexivity | simpl; lia | simpl; lia |].
  exists fields. split; [exact H1 | exact H2].
Defined.

(** X15. The PyAudio client writes to the audio device exactly the bytes
    it receives after the header, in order: what has been written is always an
    initial part of the received bytes; playback ends without error exactly
    when every chunk holds whole samples (and whole frames for several
    channels), and then every received byte has been written. *)
Theorem playback_writes_what_it_receives (d : Client.dtype) (channels : Z)
    (chunks : list (list Z)) :
  (exists rest,
     concat chunks = concat (fst (Client.play d channels chunks)) ++ rest)
  /\ (snd (Client.play d channels chunks) = None
      <-> Forall (whole_frames d channels) chunks)
  /\ (snd (Client.play d channels chunks) = None ->
      concat (fst (Client.play d channels chunks)) = concat chunks).
Proof.
  split; [apply play_prefix | split; [split|]].
  - apply play_none.
  - intros H. now rewrite (play_whole d channels chunks H).
  - intros H. apply play_none in H.
    rewrite (play_whole d channels chunks H). apply concat_filter_nonempty.
Qed.

(** ** The upload endpoints *)

Section EndpointFacts.

Import Endpoints.

Lemma lstrip_empty (s : string) : lstrip s = EmptyString <-> blank s = true.
Proof.
  induction s as [|c s IH]; [now split|].
  cbn [lstrip blank]. destruct (is_space c); cbn [andb];
    [exact IH | split; discriminate].
Qed.

Lemma blank_rstrip (s : string) : blank (rstrip s) = blank s.
Proof.
  induction s as [|c s IH]; [reflexivity|].
  cbn [rstrip blank]. destruct (rstrip s) as [|c' r] eqn:E.
  - rewrite <- IH. cbn [blank]. rewrite andb_true_r.
    destruct (is_space c) eqn:Ec; cbn [blank]; rewrite ?Ec; reflexivity.
  - cbn [blank] in *. now rewrite IH.
Qed.

Lemma strip_empty (s : string) : strip s = EmptyString <-> blank s = true.
Proof. unfold strip. now rewrite lstrip_empty, blank_rstrip. Qed.

Lemma strip_empty_eqb (s : string) :
  String.eqb (strip s) EmptyString = blank s.
Proof.
  destruct (blank s) eqn:E.
  - apply String.eqb_eq. now apply strip_empty.
  - apply String.eqb_neq. intros H. apply strip_empty in H. congruence.
Qed.

Lemma validate_raises_400 (file : Upload.UploadFile) (e : exn) :
  Upload.validate_audio_file file = Raise e -> e = HTTPException 400.
Proof.
  unfold Upload.validate_audio_file.
  destruct (Upload.filename file); [|congruence].
  destruct (String.eqb _ _); [congruence|].
  destruct (negb _); [congruence|].
  destruct (Upload.too_large file); congruence.
Qed.

Lemma store_upload_invalid (d : Deployment) (file : VoiceUpload)
    (st : Server) (e : exn) :
  Upload.validate_audio_file (meta file) = Raise e ->
  store_upload d file st = (st, Raise (HTTPException 400)).
Proof.
  intros H. unfold store_upload. rewrite H.
  now rewrite (validate_raises_400 _ _ H).
Qed.

Lemma remove_fresh (path : string) (existing : list string) :
  ~ In path existing ->
  remove string_dec path (path :: existing) = existing.
Proof.
  intros H. cbn [remove].
  destruct (string_dec path path) as [_ | Hne]; [|contradiction].
  now apply notin_remove.
Qed.

Lemma cleanup_temp_removes (d : Deployment) (path : string)
    (existing : list string) (n : nat) (l : list event) :
  unlink_ok d path = true -> path <> EmptyString -> ~ In path existing ->
  cleanup_temp d (Some path)
    {| files := path :: existing; request_counter := n; log := l |}
  = {| files := existing; request_counter := n; log := l |}.
Proof.
  intros Hun Hne Hfresh. unfold cleanup_temp. cbn [files request_counter log].
  apply String.eqb_neq in Hne. rewrite Hne, Hun.
  cbn [existsb negb andb]. rewrite String.eqb_refl. cbn [orb andb].
  now rewrite remove_fresh.
Qed.

(** After [store_upload] the temporary file exists exactly when the upload
    was stored. *)
Lemma store_upload_files (d : Deployment) (file : VoiceUpload) (st : Server) :
  well_behaved d (files st) ->
  match store_upload d file st with
  | (st1, Ok path) =>
      st1 = {| files := path :: files st;
               request_counter := request_counter st; log := log st |}
      /\ path <> EmptyString /\ ~ In path (files st)
  | (st1, Raise e) => st1 = st /\ exists code, e = HTTPException code
  end.
Proof.
  intros [Hun Hfresh]. unfold store_upload.
  destruct (Upload.validate_audio_file (meta file)) as [[] | e] eqn:Hv.
  2:{ split; [reflexivity|]. rewrite (validate_raises_400 _ _ Hv).
      now exists 400. }
  destruct (Upload.filename (meta file)) as [name|];
    [|split; [reflexivity | now exists 500]].
  destruct (mkstemp d (files st) _ _) as [path | e] eqn:Hmk;
    [|split; [reflexivity | now exists 500]].
  destruct (Hfresh _ _ _ Hmk) as [Hne Hnew].
  assert (Hclean :
    cleanup_temp d (Some path)
      {| files := path :: files st; request_counter := request_counter st;
         log := log st |} = st).
  { rewrite cleanup_temp_removes by auto. now destruct st. }
  destruct (read file) as [content | e].
  - destruct (write_ok d path content).
    + now repeat split.
    + rewrite Hclean. split; [reflexivity | now exists 500].
  - rewrite Hclean. split; [reflexivity | now exists 500].
Qed.

Lemma run_internal_files (d : Deployment) (voice text : string)
    (st : Server) :
  files (fst (run_internal d voice text st)) = files st.
Proof. reflexivity. Qed.

Lemma run_streaming_files (d : Deployment) (voice text : string)
    (cs : option nat) (ss sq : option string) (st : Server) :
  files (fst (run_streaming d voice text cs ss sq st)) = files st.
Proof. reflexivity. Qed.

End EndpointFacts.

(** X16. The non-streaming upload endpoint rejects a request with HTTP 400
    before it touches anything - no temporary file, no request counted, no
    generation started - when the input is empty or whitespace only, or
    when the uploaded file fails validation; the validation error is passed
    on as it is, not turned into HTTP 500. *)
Theorem upload_endpoint_rejects_before_any_effect (d : Endpoints.Deployment)
    (input : string) (voice : option string)
    (voice_file : option Endpoints.VoiceUpload) (st : Endpoints.Server) :
  blank input = true
  \/ (exists file e,
        voice_file = Some file
        /\ Upload.validate_audio_file (Endpoints.meta file) = Raise e) ->
  Endpoints.text_to_speech_with_upload d input voice voice_file st
  = (st, Raise (HTTPException 400)).
Proof.
  intros H. unfold Endpoints.text_to_speech_with_upload.
  rewrite strip_empty_eqb.
  destruct (blank input); [reflexivity|].
  destruct H as [H | [file [e [-> Hv]]]]; [discriminate|].
  now rewrite (store_upload_invalid d file st e Hv).
Qed.

Lemma upload_endpoint_rejects_before_any_effect_witness :
  Endpoints.text_to_speech_with_upload demo_deployment "  "
    (Some "alloy"%string) (Some demo_upload) demo_server
  = (demo_server, Raise (HTTPException 400)).
Proof.
  apply (upload_endpoint_rejects_before_any_effect demo_deployment "  "
           (Some "alloy"%string) (Some demo_upload) demo_server).
  left. reflexivity.
Defined.

(** X17. The streaming upload endpoint rejects a request with HTTP 400
    before it touches anything when the input is empty or whitespace only,
    when a streaming strategy other than sentence, paragraph, fixed, word
    or a quality other than fast, balanced, high is given, or when the
    uploaded file fails validation. *)
Theorem stream_upload_endpoint_rejects_before_any_effect
    (d : Endpoints.Deployment) (input : string) (voice : option string)
    (cs : option nat) (ss sq : option string)
    (voice_file : option Endpoints.VoiceUpload) (st : Endpoints.Server) :
  blank input = true
  \/ (exists v, ss = Some v /\ v <> EmptyString
                /\ ~ In v ["sentence"; "paragraph"; "fixed"; "word"]%string)
  \/ (exists v, sq = Some v /\ v <> EmptyString
                /\ ~ In v ["fast"; "balanced"; "high"]%string)
  \/ (exists file e,
        voice_file = Some file
        /\ Upload.validate_audio_file (Endpoints.meta file) = Raise e) ->
  Endpoints.stream_text_to_speech_with_upload d input voice cs ss sq
    voice_file st
  = (st, Raise (HTTPException 400)).
Proof.
  assert (Hgiven : forall v allowed,
            v <> EmptyString -> ~ In v allowed ->
            Endpoints.given_and_not_in (Some v) allowed = true).
  { intros v allowed Hne Hin. unfold Endpoints.given_and_not_in.
    apply String.eqb_neq in Hne. rewrite Hne. cbn [negb andb].
    destruct (existsb (String.eqb v) allowed) eqn:E; [|reflexivity].
    apply existsb_exists in E. destruct E as [x [Hx Heq]].
    apply String.eqb_eq in Heq. subst. contradiction. }
  intros H. unfold Endpoints.stream_text_to_speech_with_upload.
  rewrite strip_empty_eqb.
  destruct (blank input); [reflexivity|].
  destruct (Endpoints.given_and_not_in ss _) eqn:Es; [reflexivity|].
  destruct (Endpoints.given_and_not_in sq _) eqn:Eq; [reflexivity|].
  destruct H as [H | [[v [-> [Hne Hin]]] | [[v [-> [Hne Hin]]] | H]]].
  - discriminate.
  - rewrite (Hgiven v _ Hne Hin) in Es. discriminate.
  - rewrite (Hgiven v _ Hne Hin) in Eq. discriminate.
  - destruct H as [file [e [-> Hv]]].
    now rewrite (store_upload_invalid d file st e Hv).
Qed.

Lemma stream_upload_endpoint_rejects_before_any_effect_witness :
  Endpoints.stream_text_to_speech_with_upload demo_deployment "one two" None
    None (Some "chapter"%string) None (Some demo_upload) demo_server
  = (demo_server, Raise (HTTPException 400)).
Proof.
  apply (stream_upload_endpoint_rejects_before_any_effect demo_deployment
           "one two" None None (Some "chapter"%string) None
           (Some demo_upload) demo_server).
  right. left. exists "chapter"%string.
  split; [reflexivity | split; [discriminate|]].
  cbn. intros [H | [H | [H | [H | []]]]]; discriminate.
Defined.

(** X18. The non-streaming upload endpoint leaves no temporary file
    behind: when [mkstemp] returns a fresh path and [os.unlink] succeeds,
    the files that exist after the call are those that existed before it,
    whether the request was rejected, the upload could not be read or
    written, the generation failed or the audio was returned. *)
Theorem upload_endpoint_leaves_no_temp_file (d : Endpoints.Deployment)
    (input : string) (voice : option string)
    (voice_file : option Endpoints.VoiceUpload) (st : Endpoints.Server) :
  well_behaved d (Endpoints.files st) ->
  Endpoints.files
    (fst (Endpoints.text_to_speech_with_upload d input voice voice_file st))
  = Endpoints.files st.
Proof.
  intros Hwb. unfold Endpoints.text_to_speech_with_upload.
  destruct (String.eqb _ _); [reflexivity|].
  destruct voice_file as [file|].
  - pose proof (store_upload_files d file st Hwb) as Hst.
    destruct (Endpoints.store_upload d file st) as [st1 [path | e]].
    + destruct Hst as [-> [Hne Hfresh]].
      unfold Endpoints.run_internal.
      cbn [Endpoints.files Endpoints.request_counter Endpoints.log].
      destruct (generate_speech_internal _ _ _) as [n run].
      cbn [fst]. destruct Hwb as [Hun _].
      now rewrite cleanup_temp_removes.
    + destruct Hst as [-> _]. reflexivity.
  - unfold Endpoints.run_internal.
    destruct (generate_speech_internal _ _ _) as [n run]. reflexivity.
Qed.

Lemma upload_endpoint_leaves_no_temp_file_witness :
  Endpoints.files
    (fst (Endpoints.text_to_speech_with_upload demo_deployment "one two" None
            (Some demo_upload) demo_server))
  = [].
Proof.
  apply (upload_endpoint_leaves_no_temp_file demo_deployment "one two" None
           (Some demo_upload) demo_server).
  split; [reflexivity|].
  intros suffix prefix path H. cbn in H. injection H as <-.
  split; [destruct prefix; discriminate | intros []].
Defined.

(** X19. The streaming upload endpoint keeps the temporary voice file for
    as long as the response body needs it.  When [mkstemp] returns a fresh
    path and [os.unlink] succeeds, and the endpoint returns a response for
    an uploaded file, exactly that one new file exists and nothing has been
    generated or counted yet; once the body has been iterated to its end,
    however the generation ended, the files are again those from before the
    request and one request has been counted. *)
Theorem stream_upload_endpoint_removes_temp_file_after_the_body
    (d : Endpoints.Deployment) (input : string) (voice : option string)
    (cs : option nat) (ss sq : option string)
    (file : Endpoints.VoiceUpload) (st st1 : Endpoints.Server)
    (body : Endpoints.Server -> Endpoints.Server * result unit) :
  well_behaved d (Endpoints.files st) ->
  Endpoints.stream_text_to_speech_with_upload d input voice cs ss sq
    (Some file) st = (st1, Ok body) ->
  (exists path,
     Endpoints.files st1 = path :: Endpoints.files st
     /\ ~ In path (Endpoints.files st))
  /\ Endpoints.request_counter st1 = Endpoints.request_counter st
  /\ Endpoints.log st1 = Endpoints.log st
  /\ Endpoints.files (fst (body st1)) = Endpoints.files st
  /\ Endpoints.request_counter (fst (body st1))
     = Endpoints.request_counter st + 1.
Proof.
  intros Hwb H. unfold Endpoints.stream_text_to_speech_with_upload in H.
  destruct (String.eqb _ _); [discriminate|].
  destruct (Endpoints.given_and_not_in ss _); [discriminate|].
  destruct (Endpoints.given_and_not_in sq _); [discriminate|].
  pose proof (store_upload_files d file st Hwb) as Hst.
  destruct (Endpoints.store_upload d file st) as [st' [path | e]];
    [|discriminate].
  destruct Hst as [-> [Hne Hfresh]].
  injection H as Hst1 Hbody. subst st1 body.
  split; [now exists path | split; [reflexivity | split; [reflexivity|]]].
  destruct Hwb as [Hun _]. apply String.eqb_neq in Hne.
  rewrite Hne, Hun.
  cbn [Endpoints.files Endpoints.request_counter existsb].
  rewrite String.eqb_refl.
  cbn [negb orb andb fst Endpoints.files Endpoints.request_counter].
  rewrite remove_fresh by exact Hfresh.
  now split.
Qed.

Lemma stream_upload_endpoint_removes_temp_file_after_the_body_witness :
  Endpoints.files
    (fst (demo_stream_body
            {| Endpoints.files := ["voice_sample_0.wav"%string];
               Endpoints.request_counter := 0; Endpoints.log := [] |}))
  = []
  /\ Endpoints.request_counter
       (fst (demo_stream_body
               {| Endpoints.files := ["voice_sample_0.wav"%string];
                  Endpoints.request_counter := 0; Endpoints.log := [] |}))
     = 1.
Proof.
  destruct (stream_upload_endpoint_removes_temp_file_after_the_body
              demo_deployment "one two" None None None None demo_upload
              demo_server
              {| Endpoints.files := ["voice_sample_0.wav"%string];
                 Endpoints.request_counter := 0; Endpoints.log := [] |}
              demo_stream_body)
    as [_ [_ [_ [H1 H2]]]].
  - split; [reflexivity|].
    intros suffix prefix path H. cbn in H. injection H as <-.
    split; [destruct prefix; discriminate | intros []].
  - reflexivity.
  - split; [exact H1 | exact H2].
Defined.

(** ** Accepted file names *)

Section SplitextFacts.

Import Upload.

Lemma rfind_from_bounds (c : ascii) (p : string) (i best : Z) :
  (-1 <= best < i)%Z ->
  (-1 <= rfind_from c p i best < i + Z.of_nat (String.length p))%Z.
Proof.
  revert i best. induction p as [|x p IH]; intros i best H.
  - cbn [rfind_from String.length]. lia.
  - cbn [rfind_from String.length].
    specialize (IH (i + 1)%Z (if Ascii.eqb x c then i else best)).
    destruct (Ascii.eqb x c); lia.
Qed.

Lemma rfind_bounds (c : ascii) (p : string) :
  (-1 <= rfind c p < Z.of_nat (String.length p))%Z.
Proof.
  unfold rfind. pose proof (rfind_from_bounds c p 0 (-1)). lia.
Qed.

Lemma substring_zero (n : nat) (p : string) :
  String.substring n 0 p = EmptyString.
Proof.
  revert n. induction p as [|x p IH]; intros [|n]; cbn; auto.
Qed.

Lemma substring_all (p : string) :
  String.substring 0 (String.length p) p = p.
Proof.
  induction p as [|x p IH]; [reflexivity|].
  cbn [String.length String.substring]. now rewrite IH.
Qed.

Lemma substring_split (n : nat) (p : string) :
  n <= String.length p ->
  (String.substring 0 n p
   ++ String.substring n (String.length p - n) p)%string = p.
Proof.
  revert n. induction p as [|x p IH]; intros [|n] H; cbn [String.length] in *.
  - reflexivity.
  - lia.
  - cbn [String.substring Nat.sub String.append]. now rewrite substring_all.
  - cbn [String.substring Nat.sub String.append]. rewrite IH by lia.
    reflexivity.
Qed.

(** [splitext] cuts its argument in two; when it finds an extension, the
    stem before it is not empty. *)
Lemma splitext_parts (p : string) :
  (fst (splitext p) ++ snd (splitext p))%string = p
  /\ (snd (splitext p) <> EmptyString -> fst (splitext p) <> EmptyString).
Proof.
  unfold splitext.
  pose proof (rfind_bounds "." p) as Hdot.
  pose proof (rfind_bounds "/" p) as Hsep.
  destruct (_ && _) eqn:E; cbn [fst snd].
  2:{ split; [|congruence]. clear. induction p; cbn; congruence. }
  apply andb_true_iff in E. destruct E as [Hlt Hdots].
  apply Z.ltb_lt in Hlt.
  split.
  - unfold substr, suffix. rewrite Z.sub_0_r. cbn [Z.to_nat].
    apply substring_split. lia.
  - intros _. unfold substr in *.
    destruct (Z.to_nat (rfind "." p - (rfind "/" p + 1))) as [|k] eqn:Ek.
    { rewrite substring_zero in Hdots. discriminate. }
    rewrite Z.sub_0_r.
    destruct (Z.to_nat (rfind "." p)) as [|m] eqn:Em; [lia|].
    destruct p as [|x p]; [cbn [String.length] in *; lia|].
    cbn [Z.to_nat String.substring]. discriminate.
Qed.

End SplitextFacts.

(** X20. A file that [validate_audio_file] accepts has a name which, in
    lower case, is a non-empty stem followed by one of the extensions
    .mp3, .wav, .flac, .m4a, .ogg - a bare [.wav] is rejected - and a
    reported size of at most [25 * 1024 * 1024] bytes; that extension is
    the suffix the upload endpoints give to the temporary voice file. *)
Theorem accepted_upload_has_a_supported_suffix (file : Upload.UploadFile) :
  Upload.validate_audio_file file = Ok tt ->
  exists name stem ext,
    Upload.filename file = Some name
    /\ Upload.lower name = (stem ++ ext)%string
    /\ stem <> EmptyString
    /\ In ext [".mp3"; ".wav"; ".flac"; ".m4a"; ".ogg"]%string
    /\ snd (Upload.splitext (Upload.lower name)) = ext
    /\ (forall n, Upload.size file = Some n -> (n <= 25 * 1024 * 1024)%Z).
Proof.
  unfold Upload.validate_audio_file.
  destruct (Upload.filename file) as [name|]; [|discriminate].
  destruct (String.eqb name EmptyString); [discriminate|].
  destruct (Upload.supported _) eqn:Hsup; cbn [negb]; [|discriminate].
  destruct (Upload.too_large file) eqn:Hsize; [discriminate|].
  intros _.
  destruct (splitext_parts (Upload.lower name)) as [Hcat Hstem].
  exists name, (fst (Upload.splitext (Upload.lower name))),
    (snd (Upload.splitext (Upload.lower name))).
  unfold Upload.supported in Hsup. apply existsb_exists in Hsup.
  destruct Hsup as [x [Hin Heq]]. apply String.eqb_eq in Heq.
  split; [reflexivity|]. split; [now rewrite Hcat|].
  split; [|split; [|split; [reflexivity|]]].
  - apply Hstem. rewrite Heq.
    unfold Upload.SUPPORTED_AUDIO_FORMATS in Hin. cbn [In] in Hin.
    destruct Hin as [<- | [<- | [<- | [<- | [<- | []]]]]]; discriminate.
  - rewrite Heq. exact Hin.
  - intros n Hn. unfold Upload.too_large in Hsize. rewrite Hn in Hsize.
    unfold Upload.max_size in Hsize.
    destruct (n =? 0)%Z eqn:E0; cbn [negb andb] in Hsize.
    + apply Z.eqb_eq in E0. lia.
    + apply Z.ltb_ge in Hsize. lia.
Qed.

Lemma accepted_upload_has_a_supported_suffix_witness :
  exists name stem ext,
    Upload.filename (Endpoints.meta demo_upload) = Some name
    /\ Upload.lower name = (stem ++ ext)%string
    /\ stem <> EmptyString
    /\ In ext [".mp3"; ".wav"; ".flac"; ".m4a"; ".ogg"]%string
    /\ snd (Upload.splitext (Upload.lower name)) = ext
    /\ (forall n, Upload.size (Endpoints.meta demo_upload) = Some n ->
                  (n <= 25 * 1024 * 1024)%Z).
Proof.
  apply (accepted_upload_has_a_supported_suffix (Endpoints.meta demo_upload)).
  reflexivity.
Defined.

(** ** Error codes *)

Section ErrorCodes.

Lemma internal_raises (w : World) (n : nat) (text : string) (e : exn) :
  snd (snd (generate_speech_internal w n text)) = Raise e ->
  http_400_or_500 e.
Proof.
  unfold generate_speech_internal, http_400_or_500. cbn [snd].
  destruct (get_model w) as [model|].
  2:{ cbn. intros H. injection H as <-. now right. }
  destruct (ENABLE_MEMORY_MONITORING (config w));
    cbn -[internal_body periodic_cleanup Nat.ltb];
    (destruct (_ <? _);
     [cbn; intros H; injection H as <-; now left|]);
    destruct (internal_body w model text) as [tr [a | e0]];
    cbn -[periodic_cleanup];
    destruct (periodic_cleanup (config w) (n + 1)) as [tr' [[] | e1]];
    cbn; intros H; try discriminate; injection H as <-; now right.
Qed.



Lemma store_upload_raises (d : Endpoints.Deployment)
    (file : Endpoints.VoiceUpload) (st : Endpoints.Server) (e : exn) :
  snd (Endpoints.store_upload d file st) = Raise e -> http_400_or_500 e.
Proof.
  unfold Endpoints.store_upload, http_400_or_500.
  destruct (Upload.validate_audio_file _) as [[] | e0] eqn:Hv.
  2:{ rewrite (validate_raises_400 _ _ Hv). cbn.
      intros H. injection H as <-. now left. }
  destruct (Upload.filename _);
    [|cbn; intros H; injection H as <-; now right].
  destruct (Endpoints.mkstemp d _ _ _);
    [|cbn; intros H; injection H as <-; now right].
  destruct (Endpoints.read file);
    [|cbn [snd]; intros H; injection H as <-; now right].
  destruct (Endpoints.write_ok d _ _); cbn [snd]; intros H;
    [discriminate | injection H as <-; now right].
Qed.

End ErrorCodes.



(** X22. The non-streaming upload endpoint, generation included, and the
    streaming upload endpoint up to the moment it returns its response fail
    only with HTTP 400 or HTTP 500: an error while the uploaded file is
    stored, read or written never reaches the caller as another
    exception. *)
Theorem upload_endpoints_fail_only_with_http_400_or_500
    (d : Endpoints.Deployment) (input : string) (voice : option string)
    (cs : option nat) (ss sq : option string)
    (voice_file : option Endpoints.VoiceUpload) (st : Endpoints.Server)
    (e : exn) :
  (snd (Endpoints.text_to_speech_with_upload d input voice voice_file st)
   = Raise e ->
   e = HTTPException 400 \/ e = HTTPException 500)
  /\ (snd (Endpoints.stream_text_to_speech_with_upload d input voice cs ss sq
             voice_file st) = Raise e ->
      e = HTTPException 400 \/ e = HTTPException 500).
Proof.
  split.
  - unfold Endpoints.text_to_speech_with_upload.
    destruct (String.eqb _ _);
      [cbn; intros H; injection H as <-; now left|].
    destruct voice_file as [file|].
    + pose proof (store_upload_raises d file st) as Hst.
      destruct (Endpoints.store_upload d file st) as [st1 [path | e0]].
      * unfold Endpoints.run_internal.
        pose proof (internal_raises
                      (Endpoints.world_with_voice d path)
                      (Endpoints.request_counter st1)
                      (Endpoints.strip input) e) as Hin.
        destruct (generate_speech_internal _ _ _) as [k run].
        cbn [snd] in *. exact Hin.
      * cbn [snd] in *. intros H. injection H as <-.
        apply (Hst e0). reflexivity.
    + unfold Endpoints.run_internal.
      pose proof (internal_raises
                    (Endpoints.world_with_voice d
                       (Endpoints.resolve_voice_path d voice))
                    (Endpoints.request_counter st)
                    (Endpoints.strip input) e) as Hin.
      destruct (generate_speech_internal _ _ _) as [k run].
      cbn [snd] in *. exact Hin.
  - unfold Endpoints.stream_text_to_speech_with_upload.
    destruct (String.eqb _ _);
      [cbn; intros H; injection H as <-; now left|].
    destruct (Endpoints.given_and_not_in ss _);
      [cbn; intros H; injection H as <-; now left|].
    destruct (Endpoints.given_and_not_in sq _);
      [cbn; intros H; injection H as <-; now left|].
    destruct voice_file as [file|]; [|cbn; discriminate].
    pose proof (store_upload_raises d file st) as Hst.
    destruct (Endpoints.store_upload d file st) as [st1 [path | e0]];
      [cbn; discriminate|].
    cbn [snd] in *. intros H. injection H as <-.
        apply (Hst e0). reflexivity.
Qed.

Lemma upload_endpoints_fail_only_with_http_400_or_500_witness :
  snd (Endpoints.text_to_speech_with_upload demo_deployment " " None None
         demo_server) = Raise (HTTPException 400)
  /\ (HTTPException 400 = HTTPException 400
      \/ HTTPException 400 = HTTPException 500).
Proof.
  destruct (upload_endpoints_fail_only_with_http_400_or_500 demo_deployment
              " " None None None None None demo_server (HTTPException 400))
    as [H1 _].
  split; [reflexivity | apply H1; reflexivity].
Defined.
